(** * Intermediate-code generation for arithmetic expressions

    A shallow embedding of [code.cpp]: the lexer and the two-stack
    operator-precedence reducer of [processExpression], the renderings
    [Instruction::toString] and [Instruction::toQuadruple], and the printers
    [printTriples] and [printIndirectTriples], followed by the properties
    established about them.  [processExpression] is given twice: as a
    function, and statement by statement as a transition system; the two
    are proved to agree.

    Conventions of the embedding.
    - [std::string] is [string]; [char] is [ascii]; the character classes are
      those of the "C" locale, in which a byte above 127 is neither a blank,
      a digit nor a letter.
    - [std::stack] is a list whose head is the top; [std::vector::push_back]
      appends at the end of a list.
    - [int] is a [Z] kept below [INT_MAX]; the increment that would leave the
      range is undefined behaviour in the source, and so are [top()] and
      [pop()] on an empty stack.  Undefined behaviour is an explicit outcome
      [Undefined _] of the error monad [Outcome]. *)

From Stdlib Require Import List String Ascii Bool Arith ZArith NArith Lia.
From Stdlib Require Import DecimalString DecimalZ.
Import ListNotations.

Local Open Scope string_scope.
Local Open Scope Z_scope.

(** ** Data model *)

Module TokenType.

Inductive t : Set := NUMBER | OPERATOR | VARIABLE | PARENTHESIS.

Definition eqb (a b : t) : bool :=
  match a, b with
  | NUMBER, NUMBER | OPERATOR, OPERATOR
  | VARIABLE, VARIABLE | PARENTHESIS, PARENTHESIS => true
  | _, _ => false
  end.

End TokenType.
Import TokenType(NUMBER, OPERATOR, VARIABLE, PARENTHESIS).

Record Token : Set := mkToken { type : TokenType.t; value : string }.

Record Instruction : Set :=
  mkInstruction { op : string; arg1 : string; arg2 : string; result : string }.

(** ** Outcomes: a result, or the undefined behaviour the source runs into *)

Inductive UB : Set :=
| EmptyOperatorStack   (* operators.top() with no operator *)
| OperandUnderflow     (* operands.top() / pop() with no operand *)
| CounterOverflow.     (* tempCount++ at INT_MAX *)

Inductive Outcome (A : Type) : Type :=
| Ok (a : A)
| Undefined (u : UB).
Arguments Ok {A} a.
Arguments Undefined {A} u.

Definition bind {A B} (m : Outcome A) (k : A -> Outcome B) : Outcome B :=
  match m with
  | Ok a => k a
  | Undefined u => Undefined u
  end.

Notation "x <- m ;; k" := (bind m (fun x => k))
  (at level 61, m at next level, right associativity).

(** ** Characters ("C" locale) and decimal numerals *)

Definition code (c : ascii) : N := N_of_ascii c.

Definition isspace (c : ascii) : bool :=
  ((9 <=? code c) && (code c <=? 13) || (code c =? 32))%N.

Definition isdigit (c : ascii) : bool :=
  ((48 <=? code c) && (code c <=? 57))%N.

Definition isalpha (c : ascii) : bool :=
  ((65 <=? code c) && (code c <=? 90) || (97 <=? code c) && (code c <=? 122))%N.

Definition isalnum (c : ascii) : bool := isalpha c || isdigit c.

(** [strchr s c != NULL]: [c] occurs in [s], or [c] is the terminating
    null character, which [strchr] also finds. *)
Fixpoint occurs (c : ascii) (s : string) : bool :=
  match s with
  | EmptyString => false
  | String d s' => Ascii.eqb c d || occurs c s'
  end.

Definition strchr (s : string) (c : ascii) : bool :=
  occurs c s || Ascii.eqb c zero.

(** [std::to_string] on an [int], and [operator<<] on a [size_t]. *)
Definition to_string (n : Z) : string := NilZero.string_of_int (Z.to_int n).

Definition INT_MAX : Z := 2147483647.

Definition nl : string := String (ascii_of_nat 10) EmptyString.

(** ** Step 1: tokenization *)

(** The inner [while] of the numeric and identifier branches: the maximal
    prefix of characters satisfying [p], and what follows it. *)
Fixpoint scan (p : ascii -> bool) (s : string) : string * string :=
  match s with
  | EmptyString => (EmptyString, EmptyString)
  | String c s' =>
      if p c then let (cur, rest) := scan p s' in (String c cur, rest)
      else (EmptyString, s)
  end.

Definition numeric (c : ascii) : bool := isdigit c || Ascii.eqb c ".".
Definition identifier (c : ascii) : bool := isalnum c || Ascii.eqb c "_".

(** The outer [for] over the characters.  Every iteration consumes at least
    one character, so the length of the text bounds the iterations. *)
Fixpoint tokenize_loop (fuel : nat) (s : string) : list Token :=
  match fuel with
  | O => []
  | S fuel' =>
      match s with
      | EmptyString => []
      | String c s' =>
          if isspace c then tokenize_loop fuel' s'
          else if isdigit c then
            let (current, rest) := scan numeric s in
            mkToken NUMBER current :: tokenize_loop fuel' rest
          else if isalpha c then
            let (current, rest) := scan identifier s in
            mkToken VARIABLE current :: tokenize_loop fuel' rest
          else if strchr "+-*/%^()" c then
            mkToken (if Ascii.eqb c "(" || Ascii.eqb c ")"
                     then PARENTHESIS else OPERATOR)
                    (String c EmptyString)
            :: tokenize_loop fuel' s'
          else tokenize_loop fuel' s'
      end
  end.

Definition tokenize (expression : string) : list Token :=
  tokenize_loop (String.length expression) expression.

(** ** Step 2: the reducer's state and its two lambdas *)

Record State : Set := mkState {
  instructions : list Instruction;
  operators : list Token;     (* head = top *)
  operands : list string;     (* head = top *)
  tempCount : Z
}.

Definition initial : State :=
  {| instructions := []; operators := []; operands := []; tempCount := 1 |}.

Definition getPrecedence (o : string) : Z :=
  if ((o =? "+") || (o =? "-"))%string then 1
  else if ((o =? "*") || (o =? "/") || (o =? "%"))%string then 2
  else if (o =? "^")%string then 3
  else 0.

Definition processOperator (st : State) : Outcome State :=
  match operators st with
  | [] => Undefined EmptyOperatorStack
  | top :: ops =>
      match operands st with
      | a2 :: a1 :: rest =>
          if tempCount st <? INT_MAX then
            let tempVar := "t" ++ to_string (tempCount st) in
            Ok {| instructions :=
                    instructions st ++ [mkInstruction (value top) a1 a2 tempVar];
                  operators := ops;
                  operands := tempVar :: rest;
                  tempCount := tempCount st + 1 |}
          else Undefined CounterOverflow
      | _ => Undefined OperandUnderflow
      end
  end.

(** ** Steps 3 and 4: the token loop and the final flush *)

(** [while (!operators.empty() && cond(operators.top())) processOperator();]
    Each iteration pops one operator, so the height of the operator stack
    bounds the iterations. *)
Fixpoint while_top (cond : Token -> bool) (fuel : nat) (st : State)
  : Outcome State :=
  match fuel with
  | O => Ok st
  | S fuel' =>
      match operators st with
      | [] => Ok st
      | top :: _ =>
          if cond top then st' <- processOperator st ;; while_top cond fuel' st'
          else Ok st
      end
  end.

Definition reduce_while (cond : Token -> bool) (st : State) : Outcome State :=
  while_top cond (List.length (operators st)) st.

(** The condition of the [while] at an operator token. *)
Definition yields (token top : Token) : bool :=
  let isRightAssoc := (value token =? "^")%string in
  TokenType.eqb (type top) OPERATOR &&
  ((negb isRightAssoc && (getPrecedence (value top) >=? getPrecedence (value token)))
   || (isRightAssoc && (getPrecedence (value top) >? getPrecedence (value token)))).

Definition not_open (top : Token) : bool := negb (value top =? "(")%string.

Definition push_operator (token : Token) (st : State) : State :=
  {| instructions := instructions st;
     operators := token :: operators st;
     operands := operands st;
     tempCount := tempCount st |}.

Definition push_operand (v : string) (st : State) : State :=
  {| instructions := instructions st;
     operators := operators st;
     operands := v :: operands st;
     tempCount := tempCount st |}.

Definition pop_operator (st : State) : State :=
  {| instructions := instructions st;
     operators := tl (operators st);
     operands := operands st;
     tempCount := tempCount st |}.

(** One iteration of the [for] over the tokens. *)
Definition processToken (token : Token) (st : State) : Outcome State :=
  if TokenType.eqb (type token) NUMBER || TokenType.eqb (type token) VARIABLE then
    Ok (push_operand (value token) st)
  else if TokenType.eqb (type token) OPERATOR then
    st' <- reduce_while (yields token) st ;;
    Ok (push_operator token st')
  else if (value token =? "(")%string then
    Ok (push_operator token st)
  else if (value token =? ")")%string then
    st' <- reduce_while not_open st ;;
    Ok (match operators st' with [] => st' | _ :: _ => pop_operator st' end)
  else Ok st.

Fixpoint processTokens (tokens : list Token) (st : State) : Outcome State :=
  match tokens with
  | [] => Ok st
  | token :: tokens' => st' <- processToken token st ;; processTokens tokens' st'
  end.

(** Steps 3 and 4 from the initial state: the state in which the final
    assignment is decided. *)
Definition reduce (tokens : list Token) : Outcome State :=
  st <- processTokens tokens initial ;;
  reduce_while (fun _ => true) st.

Definition finish (resultVar : string) (st : State) : list Instruction :=
  match operands st with
  | [] => instructions st
  | top :: _ => instructions st ++ [mkInstruction "=" top "" resultVar]
  end.

Definition processExpression (expression resultVar : string)
  : Outcome (list Instruction) :=
  st <- reduce (tokenize expression) ;;
  Ok (finish resultVar st).

(** ** The pipeline, statement by statement

    The same code as a transition system: a configuration records where the
    control of [processExpression] stands and the variables live there, and
    a step executes one branch of one statement.  The guards of a step are
    the tests the code makes to take that branch.  A configuration in which
    pop-and-reduce has undefined behaviour has no successor. *)

Inductive Control : Type :=
| Scanning (rest : string) (tokens : list Token)
    (* head of the [for] of line 41; [rest] is the text from index [i] on *)
| InNumber (current rest : string) (tokens : list Token)
    (* head of the [while] of line 49 *)
| InVariable (current rest : string) (tokens : list Token)
    (* head of the [while] of line 57 *)
| AtToken (tokens : list Token) (st : State)
    (* head of the [for] of line 93; [tokens] are those still to read *)
| AtOperator (token : Token) (tokens : list Token) (st : State)
    (* head of the [while] of line 100 *)
| AtClose (tokens : list Token) (st : State)
    (* head of the [while] of line 112 *)
| AtEnd (st : State)
    (* head of the [while] of line 119 *)
| Returned (out : list Instruction).
    (* after the [return] of line 126 *)

Inductive step (resultVar : string) : Control -> Control -> Prop :=
(* Step 1, lines 41-66 *)
| step_space c rest tokens :
    isspace c = true ->
    step resultVar (Scanning (String c rest) tokens) (Scanning rest tokens)
| step_digit c rest tokens :
    isspace c = false -> isdigit c = true ->
    step resultVar (Scanning (String c rest) tokens)
                   (InNumber EmptyString (String c rest) tokens)
| step_number_more current c rest tokens :
    numeric c = true ->
    step resultVar (InNumber current (String c rest) tokens)
                   (InNumber (current ++ String c EmptyString) rest tokens)
| step_number_stop current c rest tokens :
    numeric c = false ->
    step resultVar (InNumber current (String c rest) tokens)
                   (Scanning (String c rest)
                             (tokens ++ [mkToken NUMBER current]))
| step_number_end current tokens :
    step resultVar (InNumber current EmptyString tokens)
                   (Scanning EmptyString (tokens ++ [mkToken NUMBER current]))
| step_letter c rest tokens :
    isspace c = false -> isdigit c = false -> isalpha c = true ->
    step resultVar (Scanning (String c rest) tokens)
                   (InVariable EmptyString (String c rest) tokens)
| step_variable_more current c rest tokens :
    identifier c = true ->
    step resultVar (InVariable current (String c rest) tokens)
                   (InVariable (current ++ String c EmptyString) rest tokens)
| step_variable_stop current c rest tokens :
    identifier c = false ->
    step resultVar (InVariable current (String c rest) tokens)
                   (Scanning (String c rest)
                             (tokens ++ [mkToken VARIABLE current]))
| step_variable_end current tokens :
    step resultVar (InVariable current EmptyString tokens)
                   (Scanning EmptyString (tokens ++ [mkToken VARIABLE current]))
| step_symbol c rest tokens :
    isspace c = false -> isdigit c = false -> isalpha c = false ->
    strchr "+-*/%^()" c = true ->
    step resultVar (Scanning (String c rest) tokens)
                   (Scanning rest
                      (tokens ++ [mkToken (if Ascii.eqb c "(" || Ascii.eqb c ")"
                                           then PARENTHESIS else OPERATOR)
                                          (String c EmptyString)]))
| step_skip c rest tokens :
    isspace c = false -> isdigit c = false -> isalpha c = false ->
    strchr "+-*/%^()" c = false ->
    step resultVar (Scanning (String c rest) tokens) (Scanning rest tokens)
(* Step 2, lines 69-72: the declarations *)
| step_declare tokens :
    step resultVar (Scanning EmptyString tokens) (AtToken tokens initial)
(* Step 3, lines 93-116 *)
| step_operand token tokens st :
    type token = NUMBER \/ type token = VARIABLE ->
    step resultVar (AtToken (token :: tokens) st)
                   (AtToken tokens (push_operand (value token) st))
| step_operator token tokens st :
    type token = OPERATOR ->
    step resultVar (AtToken (token :: tokens) st) (AtOperator token tokens st)
| step_operator_reduce token tokens st top ops st' :
    operators st = top :: ops -> yields token top = true ->
    processOperator st = Ok st' ->
    step resultVar (AtOperator token tokens st) (AtOperator token tokens st')
| step_operator_push token tokens st top ops :
    operators st = top :: ops -> yields token top = false ->
    step resultVar (AtOperator token tokens st)
                   (AtToken tokens (push_operator token st))
| step_operator_push_empty token tokens st :
    operators st = [] ->
    step resultVar (AtOperator token tokens st)
                   (AtToken tokens (push_operator token st))
| step_open token tokens st :
    type token = PARENTHESIS -> value token = "(" ->
    step resultVar (AtToken (token :: tokens) st)
                   (AtToken tokens (push_operator token st))
| step_close token tokens st :
    type token = PARENTHESIS -> value token <> "(" -> value token = ")" ->
    step resultVar (AtToken (token :: tokens) st) (AtClose tokens st)
| step_close_reduce tokens st top ops st' :
    operators st = top :: ops -> value top <> "(" ->
    processOperator st = Ok st' ->
    step resultVar (AtClose tokens st) (AtClose tokens st')
| step_close_discard tokens st top ops :
    operators st = top :: ops -> value top = "(" ->
    step resultVar (AtClose tokens st) (AtToken tokens (pop_operator st))
| step_close_unmatched tokens st :
    operators st = [] ->
    step resultVar (AtClose tokens st) (AtToken tokens st)
| step_neither token tokens st :
    type token = PARENTHESIS -> value token <> "(" -> value token <> ")" ->
    step resultVar (AtToken (token :: tokens) st) (AtToken tokens st)
(* Step 4 and the final assignment, lines 119-126 *)
| step_tokens_read st :
    step resultVar (AtToken [] st) (AtEnd st)
| step_flush st top ops st' :
    operators st = top :: ops -> processOperator st = Ok st' ->
    step resultVar (AtEnd st) (AtEnd st')
| step_return st :
    operators st = [] ->
    step resultVar (AtEnd st) (Returned (finish resultVar st)).

Inductive steps (resultVar : string) : Control -> Control -> Prop :=
| steps_refl c : steps resultVar c c
| steps_step c c' c'' :
    step resultVar c c' -> steps resultVar c' c'' -> steps resultVar c c''.

(** An invocation of [processExpression] that returns [out]. *)
Definition returns (expression resultVar : string) (out : list Instruction)
  : Prop :=
  steps resultVar (Scanning expression []) (Returned out).

(** What the embedding as a function computes from a configuration on. *)
Definition conclude (resultVar : string) (st : State)
  : Outcome (list Instruction) :=
  st' <- reduce_while (fun _ => true) st ;;
  Ok (finish resultVar st').

Definition after_tokens (resultVar : string) (tokens : list Token) (st : State)
  : Outcome (list Instruction) :=
  st' <- processTokens tokens st ;;
  conclude resultVar st'.

Definition remaining (resultVar : string) (c : Control)
  : Outcome (list Instruction) :=
  match c with
  | Scanning rest tokens =>
      after_tokens resultVar (tokens ++ tokenize rest) initial
  | InNumber current rest tokens =>
      after_tokens resultVar
        (tokens ++ mkToken NUMBER (current ++ fst (scan numeric rest))
                :: tokenize (snd (scan numeric rest)))
        initial
  | InVariable current rest tokens =>
      after_tokens resultVar
        (tokens ++ mkToken VARIABLE (current ++ fst (scan identifier rest))
                :: tokenize (snd (scan identifier rest)))
        initial
  | AtToken tokens st => after_tokens resultVar tokens st
  | AtOperator token tokens st =>
      st' <- reduce_while (yields token) st ;;
      after_tokens resultVar tokens (push_operator token st')
  | AtClose tokens st =>
      st' <- reduce_while not_open st ;;
      after_tokens resultVar tokens
        (match operators st' with [] => st' | _ :: _ => pop_operator st' end)
  | AtEnd st => conclude resultVar st
  | Returned out => Ok out
  end.

(** ** The views *)

Definition toString (i : Instruction) : string :=
  if (op i =? "=")%string then result i ++ " = " ++ arg1 i
  else result i ++ " = " ++ arg1 i ++ " " ++ op i ++ " " ++ arg2 i.

Definition toQuadruple (i : Instruction) : string :=
  "(" ++ op i ++ ", " ++ arg1 i ++ ", "
      ++ (if (op i =? "=")%string then " " else arg2 i) ++ ", " ++ result i ++ ")".

(** [std::cout] is the text written to it so far. *)
Definition ostream : Set := string.

Definition triple_row (i : nat) (ins : Instruction) : string :=
  to_string (Z.of_nat i) ++ ": (" ++ op ins ++ ", " ++ arg1 ins ++ ", "
    ++ arg2 ins ++ ")" ++ nl.

Definition pointer_row (i : nat) : string :=
  to_string (Z.of_nat i) ++ " -> " ++ to_string (Z.of_nat i) ++ nl.

(** [for (size_t i = from; i < instructions.size(); i++) cout << row(i, instructions[i]);]
    run over the instructions from position [from] on. *)
Fixpoint print_rows (row : nat -> Instruction -> string) (from : nat)
    (l : list Instruction) (out : ostream) : ostream :=
  match l with
  | [] => out
  | ins :: l' => print_rows row (S from) l' (out ++ row from ins)
  end.

Definition printTriples (l : list Instruction) (out : ostream) : ostream :=
  print_rows triple_row 0 l (out ++ nl ++ "Triples:" ++ nl).

Definition printIndirectTriples (l : list Instruction) (out : ostream) : ostream :=
  let out := out ++ nl ++ "Indirect Triples:" ++ nl in
  let out := out ++ "Pointer Table:" ++ nl in
  let out := print_rows (fun i _ => pointer_row i) 0 l out in
  let out := out ++ nl ++ "Instruction Table:" ++ nl in
  print_rows triple_row 0 l out.

(** The two loops of [main] that print the TAC and the quadruples, with the
    1-based index [i + 1]. *)
Definition printTAC (l : list Instruction) (out : ostream) : ostream :=
  print_rows (fun i ins => to_string (Z.of_nat i + 1) ++ ": " ++ toString ins ++ nl)
             0 l (out ++ nl ++ "Three Address Code (TAC):" ++ nl).

Definition printQuadruples (l : list Instruction) (out : ostream) : ostream :=
  print_rows (fun i ins => to_string (Z.of_nat i + 1) ++ ": " ++ toQuadruple ins ++ nl)
             0 l (out ++ nl ++ "Quadruples:" ++ nl).

(** * Vocabulary of the properties *)

(** ** Tokens and well-formed infix expressions *)

Definition is_operand (t : Token) : bool :=
  TokenType.eqb (type t) NUMBER || TokenType.eqb (type t) VARIABLE.

Definition operator_symbol (v : string) : bool :=
  existsb (String.eqb v) ["+"; "-"; "*"; "/"; "%"; "^"].

Definition is_operator (t : Token) : bool :=
  TokenType.eqb (type t) OPERATOR && operator_symbol (value t).

Definition open_paren : Token := mkToken PARENTHESIS "(".
Definition close_paren : Token := mkToken PARENTHESIS ")".

(** The number of binary operator occurrences. *)
Definition count_operators (ts : list Token) : nat :=
  List.length (filter (fun t => TokenType.eqb (type t) OPERATOR) ts).

(** [E ::= operand | E operator E | ( E )] *)
Inductive infix : list Token -> Prop :=
| infix_operand t :
    is_operand t = true -> infix [t]
| infix_binary l o r :
    infix l -> is_operator o = true -> infix r -> infix (l ++ o :: r)
| infix_paren e :
    infix e -> infix (open_paren :: e ++ [close_paren]).

(** [F ::= operand | ( F operator F )] *)
Inductive fully_parenthesized : list Token -> Prop :=
| fp_operand t :
    is_operand t = true -> fully_parenthesized [t]
| fp_binary l o r :
    fully_parenthesized l -> is_operator o = true -> fully_parenthesized r ->
    fully_parenthesized (open_paren :: l ++ o :: r ++ [close_paren]).

(** What a left-to-right reader sees of an infix expression: [shape d after ts]
    when [ts] can follow a prefix with [d] parentheses still open that ends
    in an operand or a closing parenthesis ([after = true]) or not. *)
Inductive shape : nat -> bool -> list Token -> Prop :=
| shape_end : shape 0 true []
| shape_operand d t ts :
    is_operand t = true -> shape d true ts -> shape d false (t :: ts)
| shape_open d ts :
    shape (S d) false ts -> shape d false (open_paren :: ts)
| shape_operator d t ts :
    is_operator t = true -> shape d false ts -> shape d true (t :: ts)
| shape_close d ts :
    shape d true ts -> shape (S d) true (close_paren :: ts).

(** ** States of a run *)

(** [stack_shape d k ops]: the operator stack holds [k] operators and [d]
    open parentheses, and nothing else. *)
Inductive stack_shape : nat -> nat -> list Token -> Prop :=
| stack_nil : stack_shape 0 0 []
| stack_operator d k t ops :
    is_operator t = true -> stack_shape d k ops -> stack_shape d (S k) (t :: ops)
| stack_open d k ops :
    stack_shape d k ops -> stack_shape (S d) k (open_paren :: ops).

(** One operand per stacked operator, plus one when an operand was just
    completed; the counter is one ahead of the instructions emitted. *)
Definition balanced (d k : nat) (after : bool) (st : State) : Prop :=
  stack_shape d k (operators st) /\
  List.length (operands st) = (k + if after then 1 else 0)%nat /\
  tempCount st = Z.of_nat (List.length (instructions st)) + 1.

(** The outcome is a state satisfying [Q], unless the counter overflowed,
    which takes at least [INT_MAX] operators. *)
Definition safely (limit : nat) (Q : State -> Prop) (o : Outcome State) : Prop :=
  match o with
  | Ok st => Q st
  | Undefined CounterOverflow => INT_MAX <= Z.of_nat limit
  | Undefined _ => False
  end.

(** The state a loop leaves behind: still balanced, the same number of
    operators accounted for, and the loop's test false at the top. *)
Definition after_loop (cond : Token -> bool) (d total : nat) (st' : State) : Prop :=
  exists k',
    balanced d k' true st' /\
    (List.length (instructions st') + k' = total)%nat /\
    match operators st' with [] => True | top :: _ => cond top = false end.

(** [tracked d after total st]: the stacks are balanced at depth [d] and
    [total] operators are either on the stack or already reduced. *)
Definition tracked (d : nat) (after : bool) (total : nat) (st' : State) : Prop :=
  exists k',
    balanced d k' after st' /\
    (List.length (instructions st') + k' = total)%nat.

(** The state in which a well-formed expression leaves the reducer. *)
Definition settled (total : nat) (st : State) : Prop :=
  operators st = [] /\
  (exists top, operands st = [top]) /\
  List.length (instructions st) = total.

(** The temporaries are numbered by position. *)
Definition numbered (st : State) : Prop :=
  tempCount st = Z.of_nat (List.length (instructions st)) + 1 /\
  forall i ins,
    nth_error (instructions st) i = Some ins ->
    result ins = "t" ++ to_string (Z.of_nat i + 1).

Definition has_operand (st : State) : Prop := operands st <> [].

Definition assignment (resultVar : string) (st : State) : list Instruction :=
  match operands st with
  | [] => []
  | top :: _ => [mkInstruction "=" top "" resultVar]
  end.

(** What [processExpression] does with a well-formed expression. *)
Definition compiled (ts : list Token) (resultVar : string)
    (o : Outcome (list Instruction)) : Prop :=
  match o with
  | Ok out =>
      exists body top,
        out = (body ++ [mkInstruction "=" top "" resultVar])%list /\
        List.length body = count_operators ts
  | Undefined CounterOverflow => INT_MAX <= Z.of_nat (count_operators ts)
  | Undefined _ => False
  end.

(** The text each printer writes, whatever the stream held before. *)
Definition written (print : list Instruction -> ostream -> ostream)
    (l : list Instruction) : string := print l "".

(** ** The lexical form of tokens *)

Fixpoint all_chars (p : ascii -> bool) (s : string) : bool :=
  match s with
  | EmptyString => true
  | String c s' => p c && all_chars p s'
  end.

(** A character the lexer passes over: a blank, or one that starts no token. *)
Definition skipped (c : ascii) : bool :=
  isspace c || negb (isdigit c || isalpha c || strchr "+-*/%^()" c).

(** A character that can continue neither a number nor an identifier. *)
Definition separator (c : ascii) : bool := negb (numeric c) && negb (identifier c).

(** The characters that become operator tokens. *)
Definition operator_char (c : ascii) : bool :=
  strchr "+-*/%^()" c && negb (Ascii.eqb c "(" || Ascii.eqb c ")").

(** The tokens the lexer can produce. *)
Definition lexical (t : Token) : bool :=
  match type t, value t with
  | NUMBER, String c s => isdigit c && all_chars numeric s
  | VARIABLE, String c s => isalpha c && all_chars identifier s
  | OPERATOR, String c EmptyString => operator_char c
  | PARENTHESIS, String c EmptyString => Ascii.eqb c "(" || Ascii.eqb c ")"
  | _, _ => false
  end.

(** The tokens written back as text, a blank after each. *)
Fixpoint unlex (ts : list Token) : string :=
  match ts with
  | [] => EmptyString
  | t :: ts' => value t ++ String " " (unlex ts')
  end.

(** ** Counting and tracing values *)

(** The number of operand occurrences. *)
Definition count_operands (ts : list Token) : nat :=
  List.length (filter is_operand ts).

(** Operands on the stack and instructions emitted, together. *)
Definition weight (st : State) : nat :=
  (List.length (operands st) + List.length (instructions st))%nat.

(** [v] is the text of an operand token of the input, or the result of one
    of the instructions [earlier]. *)
Definition available (tokens : list Token) (earlier : list Instruction)
    (v : string) : Prop :=
  (exists t, In t tokens /\ is_operand t = true /\ value t = v) \/
  (exists ins, In ins earlier /\ result ins = v).

(** Everything in the state comes from the input: the stacked operators
    are tokens of it, the stacked operands are available, and each
    instruction takes its operator from a token and its arguments from what
    was available before it. *)
Definition sourced (tokens : list Token) (st : State) : Prop :=
  Forall (fun t => In t tokens) (operators st) /\
  Forall (available tokens (instructions st)) (operands st) /\
  forall i ins,
    nth_error (instructions st) i = Some ins ->
    (exists t, In t tokens /\ value t = op ins) /\
    available tokens (firstn i (instructions st)) (arg1 ins) /\
    available tokens (firstn i (instructions st)) (arg2 ins).

(** The result of every instruction is still on the operand stack or is an
    argument of a later instruction. *)
Definition kept (st : State) : Prop :=
  forall i ins,
    nth_error (instructions st) i = Some ins ->
    In (result ins) (operands st) \/
    exists j later,
      (i < j)%nat /\ nth_error (instructions st) j = Some later /\
      (arg1 later = result ins \/ arg2 later = result ins).

(** ** Chains of one operator *)

(** [x0 o x1 o ... o xn] *)
Definition chain (o x0 : Token) (xs : list Token) : list Token :=
  x0 :: flat_map (fun x => [o; x]) xs.

(** The instructions of a chain reduced from the left: [acc o v] first, its
    temporary with the next operand after that. *)
Fixpoint left_chain (o acc : string) (n : Z) (vs : list string)
  : list Instruction :=
  match vs with
  | [] => []
  | v :: vs' =>
      mkInstruction o acc v ("t" ++ to_string n)
        :: left_chain o ("t" ++ to_string n) (n + 1) vs'
  end.

(** The instructions of a chain reduced from the right: [acc] is the last
    operand, [below] the operands before it, nearest first. *)
Fixpoint right_chain (o : string) (below : list string) (acc : string) (n : Z)
  : list Instruction :=
  match below with
  | [] => []
  | v :: below' =>
      mkInstruction o v acc ("t" ++ to_string n)
        :: right_chain o below' ("t" ++ to_string n) (n + 1)
  end.

(** ** A run above an open parenthesis *)

Definition omap {A B} (f : A -> B) (m : Outcome A) : Outcome B :=
  match m with
  | Ok a => Ok (f a)
  | Undefined u => Undefined u
  end.

(** The state [st] with the operators [ops] and the operands [vs] below
    its stacks. *)
Definition under (ops : list Token) (vs : list string) (st : State) : State :=
  {| instructions := instructions st;
     operators := operators st ++ ops;
     operands := operands st ++ vs;
     tempCount := tempCount st |}.

(** ** Rows of the printed tables *)

(** What a triple shows of an instruction. *)
Definition triple (ins : Instruction) : string * string * string :=
  (op ins, arg1 ins, arg2 ins).

Fixpoint join (rows : list string) : string :=
  match rows with
  | [] => EmptyString
  | row :: rows' => row ++ join rows'
  end.

(** The rows of the triples of [l], numbered from 0. *)
Definition triple_rows (l : list Instruction) : list string :=
  map (fun p => triple_row (fst p) (snd p)) (combine (seq 0 (List.length l)) l).

(** * Lemmas *)

(** ** Sample runs *)

Example run_parenthesised :
  processExpression "(a + b) * c" "r"
  = Ok [mkInstruction "+" "a" "b" "t1"; mkInstruction "*" "t1" "c" "t2";
        mkInstruction "=" "t2" "" "r"].
Proof. reflexivity. Qed.

Example run_mixed :
  processExpression "(a + b) * 12.5.3 - foo_1 % 3" "x"
  = Ok [mkInstruction "+" "a" "b" "t1"; mkInstruction "*" "t1" "12.5.3" "t2";
        mkInstruction "%" "foo_1" "3" "t3"; mkInstruction "-" "t2" "t3" "t4";
        mkInstruction "=" "t4" "" "x"].
Proof. reflexivity. Qed.

Example tokenize_skips_unknown :
  tokenize "a$b  (12.3.+_x)"
  = [mkToken VARIABLE "a"; mkToken VARIABLE "b"; mkToken PARENTHESIS "(";
     mkToken NUMBER "12.3."; mkToken OPERATOR "+"; mkToken VARIABLE "x";
     mkToken PARENTHESIS ")"].
Proof. reflexivity. Qed.

Example to_string_decimal : to_string 120 = "120".
Proof. reflexivity. Qed.

(** [strchr] finds the terminator of its string: a null character in the
    expression becomes an operator token of precedence 0. *)
Example tokenize_null_character :
  tokenize (String zero EmptyString)
  = [mkToken OPERATOR (String zero EmptyString)].
Proof. reflexivity. Qed.

(** ** The lexer's loop bound is adequate *)

Lemma scan_rest_length p s :
  (String.length (snd (scan p s)) <= String.length s)%nat.
Proof.
  induction s as [|c s IH]; simpl; [lia|].
  destruct (p c); simpl; [|lia].
  destruct (scan p s) as [cur rest]; simpl in *; lia.
Qed.

Lemma scan_first p c s :
  p c = true ->
  scan p (String c s) = (String c (fst (scan p s)), snd (scan p s)).
Proof. intros H; simpl; rewrite H; now destruct (scan p s). Qed.

Lemma isdigit_numeric c : isdigit c = true -> numeric c = true.
Proof. unfold numeric; intros ->; reflexivity. Qed.

Lemma isalpha_identifier c : isalpha c = true -> identifier c = true.
Proof. unfold identifier, isalnum; intros ->; reflexivity. Qed.

Lemma tokenize_loop_fuel f1 :
  forall f2 s,
    (String.length s <= f1)%nat -> (String.length s <= f2)%nat ->
    tokenize_loop f1 s = tokenize_loop f2 s.
Proof.
  induction f1 as [|f1 IH]; intros f2 s H1 H2.
  - destruct s; simpl in H1; [|lia]. now destruct f2.
  - destruct s as [|c s]; [now destruct f2|].
    destruct f2 as [|f2]; simpl in H1, H2; [lia|].
    cbn [tokenize_loop].
    destruct (isspace c); [apply IH; lia|].
    destruct (isdigit c) eqn:Hd.
    { rewrite (scan_first _ _ _ (isdigit_numeric _ Hd)).
      pose proof (scan_rest_length numeric s).
      f_equal; apply IH; lia. }
    destruct (isalpha c) eqn:Ha.
    { rewrite (scan_first _ _ _ (isalpha_identifier _ Ha)).
      pose proof (scan_rest_length identifier s).
      f_equal; apply IH; lia. }
    destruct (strchr "+-*/%^()" c); [f_equal|]; apply IH; lia.
Qed.

(** The loop of [tokenize], one character (or one maximal run) at a time. *)
Lemma tokenize_step c s :
  tokenize (String c s) =
    if isspace c then tokenize s
    else if isdigit c then
      mkToken NUMBER (fst (scan numeric (String c s)))
        :: tokenize (snd (scan numeric (String c s)))
    else if isalpha c then
      mkToken VARIABLE (fst (scan identifier (String c s)))
        :: tokenize (snd (scan identifier (String c s)))
    else if strchr "+-*/%^()" c then
      mkToken (if Ascii.eqb c "(" || Ascii.eqb c ")" then PARENTHESIS else OPERATOR)
              (String c EmptyString) :: tokenize s
    else tokenize s.
Proof.
  unfold tokenize; cbn [String.length tokenize_loop].
  destruct (isspace c); [reflexivity|].
  destruct (isdigit c) eqn:Hd.
  { rewrite (scan_first _ _ _ (isdigit_numeric _ Hd)); cbn [fst snd].
    f_equal; apply tokenize_loop_fuel; [apply scan_rest_length|lia]. }
  destruct (isalpha c) eqn:Ha.
  { rewrite (scan_first _ _ _ (isalpha_identifier _ Ha)); cbn [fst snd].
    f_equal; apply tokenize_loop_fuel; [apply scan_rest_length|lia]. }
  reflexivity.
Qed.

(** ** Numerals *)

Lemma to_int_proper n : Z.to_int n <> Decimal.Pos Decimal.Nil
                         /\ Z.to_int n <> Decimal.Neg Decimal.Nil.
Proof.
  destruct n as [|p|p]; simpl; split; try discriminate;
    intros [= E]; exact (DecimalPos.Unsigned.to_uint_nonnil p E).
Qed.

Lemma to_string_inj n m : to_string n = to_string m -> n = m.
Proof.
  unfold to_string; intros H.
  apply DecimalZ.to_int_inj.
  assert (E : NilZero.int_of_string (NilZero.string_of_int (Z.to_int n))
              = NilZero.int_of_string (NilZero.string_of_int (Z.to_int m)))
    by now rewrite H.
  destruct (to_int_proper n), (to_int_proper m).
  rewrite !NilZero.isi in E by assumption.
  now injection E.
Qed.

Lemma temp_name_inj n m : "t" ++ to_string n = "t" ++ to_string m -> n = m.
Proof. simpl; intros [= H]; now apply to_string_inj. Qed.

(** ** The error monad *)

Lemma bind_Ok {A B} (m : Outcome A) (k : A -> Outcome B) b :
  bind m k = Ok b -> exists a, m = Ok a /\ k a = Ok b.
Proof. destruct m as [a|u]; simpl; [eauto | discriminate]. Qed.

Ltac bind_inv H :=
  let a := fresh "st" in
  let Ha := fresh "H" a in
  apply bind_Ok in H; destruct H as (a & Ha & H).

Lemma TokenType_eqb_eq a b : TokenType.eqb a b = true <-> a = b.
Proof. destruct a, b; simpl; split; congruence. Qed.

(** ** [processOperator] and the loops built on it *)

Lemma processOperator_Ok st st' :
  processOperator st = Ok st' ->
  exists top a2 a1 rest,
    operators st = top :: operators st' /\
    operands st = a2 :: a1 :: rest /\
    operands st' = ("t" ++ to_string (tempCount st)) :: rest /\
    instructions st' =
      (instructions st
         ++ [mkInstruction (value top) a1 a2 ("t" ++ to_string (tempCount st))])%list /\
    tempCount st' = tempCount st + 1 /\
    tempCount st < INT_MAX.
Proof.
  unfold processOperator.
  destruct (operators st) as [|top ops]; [discriminate|].
  destruct (operands st) as [|a2 [|a1 rest]]; try discriminate.
  destruct (tempCount st <? INT_MAX) eqn:E; [|discriminate].
  intros [= <-]; cbn.
  exists top, a2, a1, rest; repeat split; apply Z.ltb_lt, E.
Qed.

(** The operand pops fail exactly when fewer than two operands are there. *)
Lemma processOperator_underflow st :
  processOperator st = Undefined OperandUnderflow <->
  operators st <> [] /\ (List.length (operands st) < 2)%nat.
Proof.
  unfold processOperator.
  destruct (operators st) as [|top ops].
  { split; [discriminate | intros [H _]; now elim H]. }
  destruct (operands st) as [|a2 [|a1 rest]]; simpl.
  - split; [split; [discriminate|lia] | reflexivity].
  - split; [split; [discriminate|lia] | reflexivity].
  - destruct (tempCount st <? INT_MAX); split; try discriminate; intros [_ H]; lia.
Qed.

Lemma while_top_Ok_ind (P : State -> Prop) cond :
  (forall st st', P st -> processOperator st = Ok st' -> P st') ->
  forall fuel st st', while_top cond fuel st = Ok st' -> P st -> P st'.
Proof.
  intros Hstep; induction fuel as [|fuel IH]; simpl; intros st st' H HP.
  - now injection H as <-.
  - destruct (operators st) as [|top ops] eqn:E; [now injection H as <-|].
    destruct (cond top); [|now injection H as <-].
    bind_inv H. eapply IH; eauto.
Qed.

(** The loop leaves only when the stack is empty or its top fails the test:
    the bound [length (operators st)] never cuts it short. *)
Lemma while_top_exit cond fuel :
  forall st st',
    (List.length (operators st) <= fuel)%nat ->
    while_top cond fuel st = Ok st' ->
    match operators st' with [] => True | top :: _ => cond top = false end.
Proof.
  induction fuel as [|fuel IH]; simpl; intros st st' Hf H.
  - injection H as <-. destruct (operators st); [trivial | simpl in Hf; lia].
  - destruct (operators st) as [|top ops] eqn:E.
    { injection H as <-. now rewrite E. }
    destruct (cond top) eqn:C.
    + bind_inv H. apply (IH st0); [|assumption].
      apply processOperator_Ok in Hst0 as (t & _ & _ & _ & Hops & _).
      rewrite E in Hops. injection Hops as _ <-. simpl in Hf; lia.
    + injection H as <-. now rewrite E.
Qed.

(** The bound of the loop is immaterial once it covers the operator stack,
    and [reduce_while] satisfies the equation of the [while] it stands for. *)
Lemma while_top_fuel cond f1 :
  forall f2 st,
    (List.length (operators st) <= f1)%nat ->
    (List.length (operators st) <= f2)%nat ->
    while_top cond f1 st = while_top cond f2 st.
Proof.
  induction f1 as [|f1 IH]; intros f2 st H1 H2.
  - destruct (operators st) eqn:E; simpl in H1; [|lia].
    destruct f2; simpl; now rewrite ?E.
  - destruct f2 as [|f2]; simpl.
    { destruct (operators st); [reflexivity | simpl in H2; lia]. }
    destruct (operators st) as [|top ops] eqn:E; [reflexivity|].
    destruct (cond top); [|reflexivity].
    destruct (processOperator st) as [st'|u] eqn:Hp; [simpl | reflexivity].
    apply processOperator_Ok in Hp as (t & _ & _ & _ & Hops & _).
    rewrite E in Hops. injection Hops as _ Hx.
    apply (f_equal (@List.length Token)) in Hx. simpl in H1, H2.
    apply IH; lia.
Qed.

Lemma reduce_while_step cond st :
  reduce_while cond st =
    match operators st with
    | [] => Ok st
    | top :: _ =>
        if cond top then st' <- processOperator st ;; reduce_while cond st'
        else Ok st
    end.
Proof.
  unfold reduce_while.
  destruct (operators st) as [|top ops] eqn:E; [reflexivity|].
  simpl. rewrite E. destruct (cond top); [|reflexivity].
  destruct (processOperator st) as [st'|u] eqn:Hp; [simpl | reflexivity].
  apply processOperator_Ok in Hp as (t & _ & _ & _ & Hops & _).
  rewrite E in Hops. injection Hops as _ Hx.
  apply (f_equal (@List.length Token)) in Hx.
  apply while_top_fuel; lia.
Qed.

(** The increment of the counter at [INT_MAX] is the overflow. *)
Example counter_overflow :
  processOperator {| instructions := []; operators := [mkToken OPERATOR "+"];
                     operands := ["b"; "a"]; tempCount := INT_MAX |}
  = Undefined CounterOverflow.
Proof. reflexivity. Qed.

(** ** Invariants of the reducer

    A property of the state that the four primitive updates preserve holds
    throughout a run. *)

Section Invariant.
Variable P : State -> Prop.
Hypothesis P_processOperator :
  forall st st', P st -> processOperator st = Ok st' -> P st'.
Hypothesis P_push_operator : forall t st, P st -> P (push_operator t st).
Hypothesis P_push_operand : forall v st, P st -> P (push_operand v st).
Hypothesis P_pop_operator : forall st, P st -> P (pop_operator st).

Lemma reduce_while_inv cond st st' :
  reduce_while cond st = Ok st' -> P st -> P st'.
Proof. apply while_top_Ok_ind, P_processOperator. Qed.

Lemma processToken_inv token st st' :
  processToken token st = Ok st' -> P st -> P st'.
Proof.
  unfold processToken; intros H HP.
  destruct (_ || _).
  { injection H as <-; auto. }
  destruct (TokenType.eqb _ _).
  { bind_inv H. injection H as <-. eauto using reduce_while_inv. }
  destruct (value token =? "(")%string.
  { injection H as <-; auto. }
  destruct (value token =? ")")%string.
  { bind_inv H. injection H as <-.
    destruct (operators st0); eauto using reduce_while_inv. }
  now injection H as <-.
Qed.

Lemma processTokens_inv tokens :
  forall st st', processTokens tokens st = Ok st' -> P st -> P st'.
Proof.
  induction tokens as [|token tokens IH]; simpl; intros st st' H HP.
  - now injection H as <-.
  - bind_inv H. eauto using processToken_inv.
Qed.

Lemma reduce_inv tokens st :
  reduce tokens = Ok st -> P initial -> P st.
Proof.
  unfold reduce; intros H HP. bind_inv H.
  eauto using reduce_while_inv, processTokens_inv.
Qed.
End Invariant.

(** *** The temporaries are numbered by position *)

Lemma numbered_processOperator st st' :
  numbered st -> processOperator st = Ok st' -> numbered st'.
Proof.
  intros [Hc Hn] H.
  apply processOperator_Ok in H as (top & a2 & a1 & rest & _ & _ & _ & Hi & Ht & _).
  split.
  - rewrite Hi, Ht, Hc, length_app; simpl; lia.
  - intros i ins; rewrite Hi; intros E.
    destruct (Nat.lt_ge_cases i (List.length (instructions st))) as [L|L].
    + rewrite nth_error_app1 in E by assumption. eauto.
    + rewrite nth_error_app2 in E by assumption.
      destruct (i - List.length (instructions st))%nat as [|k] eqn:D; simpl in E.
      * injection E as <-; simpl. rewrite Hc. do 3 f_equal. lia.
      * now destruct k.
Qed.

Lemma reduce_numbered tokens st : reduce tokens = Ok st -> numbered st.
Proof.
  intros H. apply (reduce_inv numbered) with (tokens := tokens); auto.
  - apply numbered_processOperator.
  - split; [reflexivity | intros [|i] ins; discriminate].
Qed.

(** *** Once an operand is there, one stays *)

Lemma has_operand_processOperator st st' :
  has_operand st -> processOperator st = Ok st' -> has_operand st'.
Proof.
  intros _ H. unfold has_operand.
  apply processOperator_Ok in H as (top & a2 & a1 & rest & _ & _ & -> & _).
  discriminate.
Qed.

Lemma has_operand_inv tokens st st' :
  processTokens tokens st = Ok st' -> has_operand st -> has_operand st'.
Proof.
  apply (processTokens_inv has_operand); unfold has_operand; simpl.
  - apply has_operand_processOperator.
  - auto.
  - discriminate.
  - auto.
Qed.

Lemma processTokens_has_operand tokens :
  forall st st',
    processTokens tokens st = Ok st' ->
    has_operand st \/ existsb is_operand tokens = true ->
    has_operand st'.
Proof.
  induction tokens as [|token tokens IH]; simpl; intros st st' H Hor.
  - injection H as <-. destruct Hor; [assumption | discriminate].
  - bind_inv H. apply (IH st0); [assumption|].
    destruct Hor as [Hs | Hx].
    + left. apply (has_operand_inv [token] st); [simpl; now rewrite Hst0 | assumption].
    + apply orb_true_iff in Hx as [Ht | Hx]; [left | now right].
      unfold processToken in Hst0. unfold is_operand in Ht. rewrite Ht in Hst0.
      injection Hst0 as <-. discriminate.
Qed.

(** ** Well-formed infix expressions *)

Lemma fully_parenthesized_infix ts : fully_parenthesized ts -> infix ts.
Proof.
  induction 1 as [t Ht | l o r _ IHl Ho _ IHr].
  - now constructor.
  - replace (l ++ o :: r ++ [close_paren])%list
      with ((l ++ o :: r) ++ [close_paren])%list
      by (rewrite <- app_assoc; reflexivity).
    now apply infix_paren, infix_binary.
Qed.

Lemma infix_shape_app ts :
  infix ts -> forall d k, shape d true k -> shape d false (ts ++ k).
Proof.
  induction 1 as [t Ht | l o r _ IHl Ho _ IHr | e _ IHe]; intros d k Hk.
  - now apply shape_operand.
  - rewrite <- app_assoc. apply IHl. simpl. apply shape_operator; auto.
  - simpl. rewrite <- app_assoc. apply shape_open, IHe. simpl.
    now apply shape_close.
Qed.

Lemma infix_shape ts : infix ts -> shape 0 false ts.
Proof.
  intros H. rewrite <- (app_nil_r ts).
  apply infix_shape_app; [assumption | constructor].
Qed.

(** *** The stacks while reading a well-formed expression *)

Lemma safely_bind limit Q R m (k : State -> Outcome State) :
  safely limit Q m ->
  (forall st, Q st -> safely limit R (k st)) ->
  safely limit R (bind m k).
Proof. destruct m as [st|[]]; simpl; auto. Qed.

Lemma safely_mono limit limit' (Q Q' : State -> Prop) o :
  (limit <= limit')%nat -> (forall st, Q st -> Q' st) ->
  safely limit Q o -> safely limit' Q' o.
Proof. destruct o as [st|[]]; simpl; auto; lia. Qed.

Lemma processOperator_step st top ops a2 a1 rest :
  operators st = top :: ops ->
  operands st = a2 :: a1 :: rest ->
  processOperator st =
    if tempCount st <? INT_MAX then
      Ok {| instructions :=
              instructions st
                ++ [mkInstruction (value top) a1 a2 ("t" ++ to_string (tempCount st))];
            operators := ops;
            operands := ("t" ++ to_string (tempCount st)) :: rest;
            tempCount := tempCount st + 1 |}
    else Undefined CounterOverflow.
Proof. unfold processOperator; now intros -> ->. Qed.

Lemma is_operator_not_open t : is_operator t = true -> (value t =? "(")%string = false.
Proof.
  unfold is_operator, operator_symbol; intros H.
  apply andb_true_iff in H as [_ H]. simpl in H.
  repeat (apply orb_true_iff in H as [H | H];
          [apply String.eqb_eq in H; now rewrite H|]).
  discriminate.
Qed.

Lemma is_operator_type t : is_operator t = true -> type t = OPERATOR.
Proof.
  unfold is_operator; intros H.
  apply andb_true_iff in H as [H _]. now apply TokenType_eqb_eq.
Qed.

Lemma while_top_balanced cond d :
  cond open_paren = false \/ d = 0%nat ->
  forall fuel st k,
    (List.length (operators st) <= fuel)%nat ->
    balanced d k true st ->
    safely (List.length (instructions st) + k)
           (after_loop cond d (List.length (instructions st) + k))
           (while_top cond fuel st).
Proof.
  intros Hc; induction fuel as [|fuel IH]; intros st k Hf (Hs & Ho & Ht); simpl.
  { exists k; repeat split; auto.
    destruct (operators st); [trivial | simpl in Hf; lia]. }
  destruct (operators st) as [|top ops] eqn:E.
  { exists k; repeat split; auto; now rewrite E. }
  destruct (cond top) eqn:C.
  2:{ exists k; repeat split; auto; now rewrite E. }
  inversion Hs as [| d' k1 t ops' Hop Hs' | d' k' ops' Hs']; subst.
  2:{ destruct Hc as [Hc | Hc]; [congruence | discriminate]. }
  destruct (operands st) as [|a2 [|a1 rest]] eqn:Eo; simpl in Ho; try lia.
  rewrite (processOperator_step st top ops a2 a1 rest E Eo).
  destruct (tempCount st <? INT_MAX) eqn:L; simpl.
  - match goal with |- safely _ _ (while_top _ _ ?s) => set (st1 := s) end.
    assert (B : balanced d k1 true st1).
    { repeat split; simpl; auto; rewrite ?length_app; simpl; lia. }
    assert (N : (List.length (instructions st1) + k1
                 = List.length (instructions st) + S k1)%nat).
    { simpl; rewrite length_app; simpl; lia. }
    rewrite <- N. apply IH; [simpl in *; lia | assumption].
  - apply Z.ltb_ge in L. lia.
Qed.

Lemma reduce_while_balanced cond d st k :
  cond open_paren = false \/ d = 0%nat ->
  balanced d k true st ->
  safely (List.length (instructions st) + k)
         (after_loop cond d (List.length (instructions st) + k))
         (reduce_while cond st).
Proof. intros Hc Hb. now apply while_top_balanced. Qed.

Lemma count_operators_cons t ts :
  count_operators (t :: ts)
  = ((if TokenType.eqb (type t) OPERATOR then 1 else 0) + count_operators ts)%nat.
Proof. unfold count_operators; simpl. now destruct (TokenType.eqb _ _). Qed.

Lemma is_operand_type t :
  is_operand t = true -> TokenType.eqb (type t) OPERATOR = false.
Proof. unfold is_operand; now destruct (type t). Qed.

Lemma yields_open_paren token : yields token open_paren = false.
Proof. reflexivity. Qed.

Lemma processToken_operator t st d k :
  is_operator t = true ->
  balanced d k true st ->
  safely (List.length (instructions st) + k)
         (tracked d false (List.length (instructions st) + k + 1))
         (processToken t st).
Proof.
  intros Ht Hb. pose proof (is_operator_type _ Ht) as Ty.
  unfold processToken. rewrite Ty. cbn [TokenType.eqb orb].
  eapply safely_bind.
  - apply (reduce_while_balanced (yields t) d st k); auto using yields_open_paren.
  - intros s (k' & (Hs & Ho & Hc) & N & _). simpl.
    exists (S k'). repeat split; simpl; auto.
    + now constructor.
    + lia.
    + lia.
Qed.

Lemma processToken_close st d k :
  balanced (S d) k true st ->
  safely (List.length (instructions st) + k)
         (tracked d true (List.length (instructions st) + k))
         (processToken close_paren st).
Proof.
  intros Hb. unfold processToken. cbn.
  eapply safely_bind.
  - apply (reduce_while_balanced not_open (S d) st k); auto.
  - intros s (k' & (Hs & Ho & Hc) & N & Hx). simpl.
    destruct (operators s) as [|top ops] eqn:E; [inversion Hs|].
    inversion Hs as [| d' k1 t ops' Hop Hs' | d' k1 ops' Hs']; subst.
    + unfold not_open in Hx.
      rewrite (is_operator_not_open _ Hop) in Hx. discriminate.
    + exists k'. repeat split; simpl; auto. now rewrite E.
Qed.

Lemma processTokens_shape d after ts :
  shape d after ts ->
  forall st k,
    balanced d k after st ->
    safely (List.length (instructions st) + k + count_operators ts)
           (tracked 0 true (List.length (instructions st) + k + count_operators ts))
           (processTokens ts st).
Proof.
  induction 1 as [ | d t ts Ht _ IH | d ts _ IH | d t ts Ht _ IH | d ts _ IH ];
    intros st k Hb.
  - (* end of input *)
    simpl. exists k. split; [assumption|]. unfold count_operators; simpl; lia.
  - (* operand *)
    destruct Hb as (Hs & Ho & Hc).
    rewrite count_operators_cons, (is_operand_type _ Ht).
    cbn [processTokens]. unfold processToken.
    unfold is_operand in Ht; rewrite Ht. cbn [bind].
    eapply safely_mono; [| |apply (IH (push_operand (value t) st) k)].
    + simpl; lia.
    + intros st' (k' & B & N). exists k'. split; [assumption|]. simpl in N. lia.
    + repeat split; simpl; auto. lia.
  - (* open parenthesis *)
    destruct Hb as (Hs & Ho & Hc).
    rewrite count_operators_cons. cbn.
    eapply safely_mono; [| |apply (IH (push_operator open_paren st) k)].
    + simpl; lia.
    + intros st' (k' & B & N). exists k'. split; [assumption|]. simpl in N. lia.
    + repeat split; simpl; auto. now constructor.
  - (* operator *)
    rewrite count_operators_cons, (is_operator_type _ Ht). cbn [processTokens TokenType.eqb].
    eapply safely_bind.
    + eapply safely_mono; [| |apply (processToken_operator t st d k Ht Hb)].
      * lia.
      * intros s Hs; exact Hs.
    + intros s (k1 & B & N).
      eapply safely_mono; [| |apply (IH s k1 B)].
      * lia.
      * intros st' (k' & B' & N'). exists k'. split; [assumption|]. lia.
  - (* close parenthesis *)
    rewrite count_operators_cons. cbn [processTokens TokenType.eqb close_paren type].
    eapply safely_bind.
    + eapply safely_mono; [| |apply (processToken_close st d k Hb)].
      * lia.
      * intros s Hs; exact Hs.
    + intros s (k1 & B & N).
      eapply safely_mono; [| |apply (IH s k1 B)].
      * lia.
      * intros st' (k' & B' & N'). exists k'. split; [assumption|]. lia.
Qed.

Lemma reduce_infix ts :
  infix ts ->
  safely (count_operators ts) (settled (count_operators ts)) (reduce ts).
Proof.
  intros H. apply infix_shape in H. unfold reduce.
  eapply safely_bind.
  - apply (processTokens_shape 0 false ts H initial 0%nat).
    repeat split; constructor.
  - simpl. intros st (k & B & N).
    eapply safely_mono;
      [| |apply (reduce_while_balanced (fun _ => true) 0%nat st k); auto].
    + lia.
    + intros st' (k' & (Hs & Ho & Hc) & N' & Hx).
      destruct (operators st') as [|top ops] eqn:E; [|discriminate].
      inversion Hs; subst. simpl in Ho.
      split; [assumption | split].
      * destruct (operands st') as [|v [|]]; simpl in Ho; try lia. now exists v.
      * lia.
Qed.

(** ** The final assignment *)

Lemma finish_app resultVar st :
  finish resultVar st = (instructions st ++ assignment resultVar st)%list.
Proof.
  unfold finish, assignment. destruct (operands st); [|reflexivity].
  now rewrite app_nil_r.
Qed.

Lemma processExpression_Ok expression resultVar out :
  processExpression expression resultVar = Ok out ->
  exists st, reduce (tokenize expression) = Ok st /\ out = finish resultVar st.
Proof.
  unfold processExpression; intros H. bind_inv H.
  injection H as <-. eauto.
Qed.

Lemma processExpression_infix expression resultVar :
  infix (tokenize expression) ->
  compiled (tokenize expression) resultVar (processExpression expression resultVar).
Proof.
  intros H. apply reduce_infix in H. unfold processExpression.
  destruct (reduce (tokenize expression)) as [st|[]]; simpl in *; auto.
  destruct H as (_ & (top & Ho) & Hn).
  exists (instructions st), top. unfold finish. now rewrite Ho.
Qed.

(** ** Strings written to a stream *)

Lemma string_app_assoc (a b c : string) : (a ++ b) ++ c = a ++ (b ++ c).
Proof. induction a as [|x a IH]; simpl; [reflexivity | now rewrite IH]. Qed.

Lemma print_rows_appends row l :
  forall from out, print_rows row from l out = out ++ print_rows row from l "".
Proof.
  induction l as [|ins l IH]; intros from out; simpl.
  - induction out as [|x out IHo]; simpl; [reflexivity | now rewrite <- IHo].
  - rewrite (IH (S from) (out ++ row from ins)), (IH (S from) (row from ins)).
    apply string_app_assoc.
Qed.

Lemma printTriples_appends l out :
  printTriples l out = out ++ written printTriples l.
Proof.
  unfold written, printTriples.
  rewrite print_rows_appends, (print_rows_appends _ _ _ ("" ++ _)).
  now rewrite !string_app_assoc.
Qed.

Lemma printTAC_appends l out : printTAC l out = out ++ written printTAC l.
Proof.
  unfold written, printTAC.
  rewrite print_rows_appends, (print_rows_appends _ _ _ ("" ++ _)).
  now rewrite !string_app_assoc.
Qed.

Lemma printQuadruples_appends l out :
  printQuadruples l out = out ++ written printQuadruples l.
Proof.
  unfold written, printQuadruples.
  rewrite print_rows_appends, (print_rows_appends _ _ _ ("" ++ _)).
  now rewrite !string_app_assoc.
Qed.

Lemma printIndirectTriples_appends l out :
  printIndirectTriples l out = out ++ written printIndirectTriples l.
Proof.
  unfold written, printIndirectTriples. cbv zeta.
  rewrite (print_rows_appends triple_row l 0%nat
             (print_rows _ 0%nat l ((out ++ _) ++ _) ++ _)).
  rewrite (print_rows_appends _ l 0%nat ((out ++ _) ++ _)).
  rewrite (print_rows_appends triple_row l 0%nat
             (print_rows _ 0%nat l (("" ++ _) ++ _) ++ _)).
  rewrite (print_rows_appends _ l 0%nat (("" ++ _) ++ _)).
  now rewrite !string_app_assoc.
Qed.

(** ** The transition system and the function agree *)

Lemma string_app_nil_r (s : string) : s ++ "" = s.
Proof. induction s as [|c s IH]; simpl; [reflexivity | now rewrite IH]. Qed.

Lemma bind_assoc {A B C} (m : Outcome A) (f : A -> Outcome B)
    (g : B -> Outcome C) :
  bind (bind m f) g = bind m (fun a => bind (f a) g).
Proof. now destruct m. Qed.

Lemma steps_trans resultVar c c' c'' :
  steps resultVar c c' -> steps resultVar c' c'' -> steps resultVar c c''.
Proof.
  induction 1 as [|c0 c1 c2 H _ IH]; [auto|].
  intros H2. eapply steps_step; eauto.
Qed.

Lemma steps_one resultVar c c' : step resultVar c c' -> steps resultVar c c'.
Proof. intros H. eapply steps_step; [exact H | apply steps_refl]. Qed.

(** *** Each configuration has at most one successor *)

Lemma step_deterministic resultVar c c1 c2 :
  step resultVar c c1 -> step resultVar c c2 -> c1 = c2.
Proof.
  intros H1 H2.
  inversion H1; subst; inversion H2; subst;
    try reflexivity; try congruence;
    repeat match goal with
           | H : _ \/ _ |- _ => destruct H
           end;
    try congruence.
Qed.

(** *** A step leaves unchanged what the function computes *)

Lemma reduce_while_nil cond st :
  operators st = [] -> reduce_while cond st = Ok st.
Proof. intros E. rewrite reduce_while_step. now rewrite E. Qed.

Lemma after_tokens_cons resultVar token tokens st :
  after_tokens resultVar (token :: tokens) st
  = (st' <- processToken token st ;; after_tokens resultVar tokens st').
Proof. unfold after_tokens. simpl. apply bind_assoc. Qed.

Lemma scan_stop p c rest :
  p c = false -> scan p (String c rest) = (EmptyString, String c rest).
Proof. intros H; simpl; now rewrite H. Qed.

Lemma step_remaining resultVar c c' :
  step resultVar c c' -> remaining resultVar c = remaining resultVar c'.
Proof.
  destruct 1; cbn [remaining].
  - (* blank *)
    rewrite tokenize_step. now rewrite H.
  - (* digit *)
    rewrite tokenize_step. now rewrite H, H0.
  - (* one more character of the number *)
    rewrite (scan_first _ _ _ H). cbn [fst snd].
    now rewrite string_app_assoc.
  - (* the number stops *)
    rewrite (scan_stop _ _ _ H). cbn [fst snd].
    now rewrite string_app_nil_r, <- app_assoc.
  - (* the number ends the text *)
    cbn. now rewrite string_app_nil_r, <- app_assoc.
  - (* letter *)
    rewrite tokenize_step. now rewrite H, H0, H1.
  - (* one more character of the identifier *)
    rewrite (scan_first _ _ _ H). cbn [fst snd].
    now rewrite string_app_assoc.
  - (* the identifier stops *)
    rewrite (scan_stop _ _ _ H). cbn [fst snd].
    now rewrite string_app_nil_r, <- app_assoc.
  - (* the identifier ends the text *)
    cbn. now rewrite string_app_nil_r, <- app_assoc.
  - (* operator or parenthesis *)
    rewrite tokenize_step, H, H0, H1, H2. now rewrite <- app_assoc.
  - (* any other character *)
    rewrite tokenize_step. now rewrite H, H0, H1, H2.
  - (* the declarations *)
    cbn. now rewrite app_nil_r.
  - (* operand *)
    rewrite after_tokens_cons. unfold processToken.
    now destruct H as [-> | ->].
  - (* operator *)
    rewrite after_tokens_cons. unfold processToken. rewrite H. cbn.
    now destruct (reduce_while (yields token) st).
  - (* the operator on top yields *)
    rewrite (reduce_while_step (yields token) st), H, H0, H1. reflexivity.
  - (* the operator on top does not yield *)
    rewrite (reduce_while_step (yields token) st), H, H0. reflexivity.
  - (* no operator on the stack *)
    now rewrite (reduce_while_nil _ _ H).
  - (* open parenthesis *)
    rewrite after_tokens_cons. unfold processToken. now rewrite H, H0.
  - (* close parenthesis *)
    rewrite after_tokens_cons. unfold processToken. rewrite H, H1. cbn.
    now destruct (reduce_while not_open st).
  - (* the top is reduced *)
    rewrite (reduce_while_step not_open st), H. unfold not_open at 1.
    apply String.eqb_neq in H0. rewrite H0, H1. reflexivity.
  - (* the open parenthesis is discarded *)
    rewrite (reduce_while_step not_open st), H. unfold not_open at 1.
    rewrite H0. cbn. now rewrite H.
  - (* no open parenthesis *)
    rewrite (reduce_while_nil _ _ H). cbn. now rewrite H.
  - (* a parenthesis token of another text *)
    rewrite after_tokens_cons. unfold processToken. rewrite H.
    apply String.eqb_neq in H0, H1. now rewrite H0, H1.
  - (* all tokens read *)
    reflexivity.
  - (* the final loop reduces *)
    unfold conclude. rewrite (reduce_while_step _ st), H, H0. reflexivity.
  - (* return *)
    unfold conclude. now rewrite (reduce_while_nil _ _ H).
Qed.

Lemma steps_remaining resultVar c c' :
  steps resultVar c c' -> remaining resultVar c = remaining resultVar c'.
Proof.
  induction 1 as [|c0 c1 c2 H _ IH]; [reflexivity|].
  now rewrite (step_remaining _ _ _ H).
Qed.

Lemma remaining_start expression resultVar :
  remaining resultVar (Scanning expression [])
  = processExpression expression resultVar.
Proof.
  unfold remaining, after_tokens, conclude, processExpression, reduce. simpl.
  now rewrite bind_assoc.
Qed.

(** *** What the function computes, the steps reach *)

Lemma processOperator_pops st st' :
  processOperator st = Ok st' ->
  List.length (operators st) = S (List.length (operators st')).
Proof.
  intros H. apply processOperator_Ok in H as (top & _ & _ & _ & E & _).
  now rewrite E.
Qed.

Lemma flush_steps resultVar n :
  forall st out,
    (List.length (operators st) <= n)%nat ->
    conclude resultVar st = Ok out ->
    steps resultVar (AtEnd st) (Returned out).
Proof.
  induction n as [|n IH]; intros st out L H; unfold conclude in H;
    rewrite reduce_while_step in H;
    destruct (operators st) as [|top ops] eqn:E; simpl in L; try lia.
  - injection H as <-. now apply steps_one, step_return.
  - injection H as <-. now apply steps_one, step_return.
  - destruct (processOperator st) as [st1|u] eqn:P; [|discriminate].
    eapply steps_step; [eapply step_flush; eauto|].
    apply IH; [|exact H].
    apply processOperator_pops in P. rewrite E in P. simpl in P. lia.
Qed.

Lemma operator_loop_steps resultVar token tokens n :
  forall st st',
    (List.length (operators st) <= n)%nat ->
    reduce_while (yields token) st = Ok st' ->
    steps resultVar (AtOperator token tokens st)
                    (AtToken tokens (push_operator token st')).
Proof.
  induction n as [|n IH]; intros st st' L H;
    rewrite reduce_while_step in H;
    destruct (operators st) as [|top ops] eqn:E; simpl in L; try lia.
  - injection H as <-. now apply steps_one, step_operator_push_empty.
  - injection H as <-. now apply steps_one, step_operator_push_empty.
  - destruct (yields token top) eqn:Y.
    + destruct (processOperator st) as [st1|u] eqn:P; [|discriminate].
      eapply steps_step; [eapply step_operator_reduce; eauto|].
      apply IH; [|exact H].
      apply processOperator_pops in P. rewrite E in P. simpl in P. lia.
    + injection H as <-. eapply steps_one, step_operator_push; eauto.
Qed.

Lemma close_loop_steps resultVar tokens n :
  forall st st',
    (List.length (operators st) <= n)%nat ->
    reduce_while not_open st = Ok st' ->
    steps resultVar (AtClose tokens st)
      (AtToken tokens
         (match operators st' with [] => st' | _ :: _ => pop_operator st' end)).
Proof.
  induction n as [|n IH]; intros st st' L H;
    rewrite reduce_while_step in H;
    destruct (operators st) as [|top ops] eqn:E; simpl in L; try lia.
  - injection H as <-. rewrite E. now apply steps_one, step_close_unmatched.
  - injection H as <-. rewrite E. now apply steps_one, step_close_unmatched.
  - unfold not_open in H at 1.
    destruct (String.eqb_spec (value top) "(") as [V|V]; simpl in H.
    + injection H as <-. rewrite E.
      eapply steps_one, step_close_discard; eauto.
    + destruct (processOperator st) as [st1|u] eqn:P; [|discriminate].
      eapply steps_step; [eapply step_close_reduce; eauto|].
      apply IH; [|exact H].
      apply processOperator_pops in P. rewrite E in P. simpl in P. lia.
Qed.

Lemma processToken_steps resultVar token tokens st st' :
  processToken token st = Ok st' ->
  steps resultVar (AtToken (token :: tokens) st) (AtToken tokens st').
Proof.
  unfold processToken. intros H.
  destruct (type token) eqn:Ty; cbn in H.
  - injection H as <-. apply steps_one, step_operand. now left.
  - bind_inv H. injection H as <-.
    eapply steps_step; [now apply step_operator|].
    eapply operator_loop_steps; [apply le_n | eassumption].
  - injection H as <-. apply steps_one, step_operand. now right.
  - destruct (String.eqb_spec (value token) "(") as [V|V].
    { injection H as <-. now apply steps_one, step_open. }
    destruct (String.eqb_spec (value token) ")") as [W|W].
    + bind_inv H. injection H as <-.
      eapply steps_step; [now apply step_close|].
      eapply close_loop_steps; [apply le_n | eassumption].
    + injection H as <-. now apply steps_one, step_neither.
Qed.

Lemma after_tokens_steps resultVar tokens :
  forall st out,
    after_tokens resultVar tokens st = Ok out ->
    steps resultVar (AtToken tokens st) (Returned out).
Proof.
  induction tokens as [|token tokens IH]; intros st out H.
  - eapply steps_step; [apply step_tokens_read|].
    eapply flush_steps; [apply le_n | exact H].
  - rewrite after_tokens_cons in H. bind_inv H.
    eapply steps_trans; [eapply processToken_steps; eassumption|].
    now apply IH.
Qed.

Lemma number_steps resultVar rest :
  forall current tokens,
    steps resultVar (InNumber current rest tokens)
      (Scanning (snd (scan numeric rest))
         (tokens ++ [mkToken NUMBER (current ++ fst (scan numeric rest))])).
Proof.
  induction rest as [|c rest IH]; intros current tokens.
  - cbn. rewrite string_app_nil_r. apply steps_one, step_number_end.
  - destruct (numeric c) eqn:N.
    + rewrite (scan_first _ _ _ N). cbn [fst snd].
      eapply steps_step; [now apply step_number_more|].
      replace (current ++ String c (fst (scan numeric rest)))
        with ((current ++ String c "") ++ fst (scan numeric rest))
        by now rewrite string_app_assoc.
      apply IH.
    + rewrite (scan_stop _ _ _ N). cbn [fst snd]. rewrite string_app_nil_r.
      now apply steps_one, step_number_stop.
Qed.

Lemma variable_steps resultVar rest :
  forall current tokens,
    steps resultVar (InVariable current rest tokens)
      (Scanning (snd (scan identifier rest))
         (tokens ++ [mkToken VARIABLE (current ++ fst (scan identifier rest))])).
Proof.
  induction rest as [|c rest IH]; intros current tokens.
  - cbn. rewrite string_app_nil_r. apply steps_one, step_variable_end.
  - destruct (identifier c) eqn:N.
    + rewrite (scan_first _ _ _ N). cbn [fst snd].
      eapply steps_step; [now apply step_variable_more|].
      replace (current ++ String c (fst (scan identifier rest)))
        with ((current ++ String c "") ++ fst (scan identifier rest))
        by now rewrite string_app_assoc.
      apply IH.
    + rewrite (scan_stop _ _ _ N). cbn [fst snd]. rewrite string_app_nil_r.
      now apply steps_one, step_variable_stop.
Qed.

Lemma scanning_steps resultVar n :
  forall rest tokens,
    (String.length rest <= n)%nat ->
    steps resultVar (Scanning rest tokens)
                    (AtToken (tokens ++ tokenize rest) initial).
Proof.
  induction n as [|n IH]; intros rest tokens L.
  - destruct rest; [|simpl in L; lia].
    cbn. rewrite app_nil_r. apply steps_one, step_declare.
  - destruct rest as [|c rest].
    { cbn. rewrite app_nil_r. apply steps_one, step_declare. }
    simpl in L. rewrite tokenize_step.
    destruct (isspace c) eqn:Sp.
    { eapply steps_step; [now apply step_space|]. apply IH; lia. }
    destruct (isdigit c) eqn:D.
    { eapply steps_step; [now apply step_digit|].
      eapply steps_trans; [apply number_steps|].
      cbn [append].
      rewrite (scan_first _ _ _ (isdigit_numeric _ D)). cbn [fst snd].
      pose proof (scan_rest_length numeric rest).
      replace (tokens ++ mkToken NUMBER (String c (fst (scan numeric rest)))
                 :: tokenize (snd (scan numeric rest)))%list
        with ((tokens ++ [mkToken NUMBER (String c (fst (scan numeric rest)))])
                ++ tokenize (snd (scan numeric rest)))%list
        by now rewrite <- app_assoc.
      apply IH; lia. }
    destruct (isalpha c) eqn:A.
    { eapply steps_step; [now apply step_letter|].
      eapply steps_trans; [apply variable_steps|].
      cbn [append].
      rewrite (scan_first _ _ _ (isalpha_identifier _ A)). cbn [fst snd].
      pose proof (scan_rest_length identifier rest).
      replace (tokens ++ mkToken VARIABLE (String c (fst (scan identifier rest)))
                 :: tokenize (snd (scan identifier rest)))%list
        with ((tokens ++ [mkToken VARIABLE (String c (fst (scan identifier rest)))])
                ++ tokenize (snd (scan identifier rest)))%list
        by now rewrite <- app_assoc.
      apply IH; lia. }
    destruct (strchr "+-*/%^()" c) eqn:Sy.
    + eapply steps_step; [now apply step_symbol|].
      match goal with
      | |- steps _ _ (AtToken (tokens ++ ?t :: ?l)%list _) =>
          replace (tokens ++ t :: l)%list with ((tokens ++ [t]) ++ l)%list
            by now rewrite <- app_assoc
      end.
      apply IH; lia.
    + eapply steps_step; [now apply step_skip|]. apply IH; lia.
Qed.

Lemma processExpression_returns expression resultVar out :
  processExpression expression resultVar = Ok out ->
  returns expression resultVar out.
Proof.
  intros H. unfold returns.
  eapply steps_trans; [apply (scanning_steps resultVar _ _ _ (le_n _))|].
  apply after_tokens_steps. rewrite <- H, <- remaining_start. reflexivity.
Qed.

(** *** Two runs from one configuration return the same *)

Lemma returned_is_final resultVar out c : ~ step resultVar (Returned out) c.
Proof. intros H. inversion H. Qed.

Lemma steps_returned_unique resultVar c out1 :
  steps resultVar c (Returned out1) ->
  forall out2, steps resultVar c (Returned out2) -> out1 = out2.
Proof.
  intros H. remember (Returned out1) as final eqn:F.
  induction H as [c|c c' c'' S1 _ IH]; intros out2 H2; subst.
  - inversion H2 as [|? c1 ? S2]; subst; [reflexivity|].
    now apply returned_is_final in S2.
  - inversion H2 as [|? c1 ? S2 R2]; subst.
    + now apply returned_is_final in S1.
    + rewrite (step_deterministic _ _ _ _ S1 S2) in IH. now apply IH.
Qed.

(** * The properties *)

(** C1.  An open parenthesis left on the operator stack at the end of the
    input is reduced like an operator by the final flush: on ["a ( b"] the
    run emits an instruction whose operator is ["("]. *)
Theorem unmatched_open_paren_is_reduced :
  tokenize "a ( b"
  = [mkToken VARIABLE "a"; mkToken PARENTHESIS "("; mkToken VARIABLE "b"]
  /\ processExpression "a ( b" "x"
     = Ok [mkInstruction "(" "a" "b" "t1"; mkInstruction "=" "t1" "" "x"].
Proof. split; reflexivity. Qed.

(** C2.  On a well-formed infix expression no pop-and-reduce step ever finds
    fewer than two operands (nor an empty operator stack), and the run
    completes when the operators number fewer than [INT_MAX]; on the
    malformed ["+ a"] the step is invoked with one operand only.  The step
    fails on its operand pops exactly when fewer than two operands are
    there. *)
Theorem operand_pops_never_underflow_on_infix :
  (forall expression resultVar,
      infix (tokenize expression) ->
      processExpression expression resultVar <> Undefined OperandUnderflow /\
      processExpression expression resultVar <> Undefined EmptyOperatorStack /\
      (Z.of_nat (count_operators (tokenize expression)) < INT_MAX ->
       exists out, processExpression expression resultVar = Ok out)) /\
  (forall st,
      processOperator st = Undefined OperandUnderflow <->
      operators st <> [] /\ (List.length (operands st) < 2)%nat) /\
  (forall resultVar,
      tokenize "+ a" = [mkToken OPERATOR "+"; mkToken VARIABLE "a"] /\
      processExpression "+ a" resultVar = Undefined OperandUnderflow).
Proof.
  split; [|split].
  - intros expression resultVar H.
    apply (processExpression_infix expression resultVar) in H.
    destruct (processExpression expression resultVar) as [out|[]]; simpl in H;
      repeat split; try discriminate; try contradiction; eauto.
    intros L; lia.
  - apply processOperator_underflow.
  - intros resultVar; split; reflexivity.
Qed.

Lemma infix_sample :
  infix (tokenize "a + b * c").
Proof.
  change (tokenize "a + b * c")
    with ([mkToken VARIABLE "a"] ++ mkToken OPERATOR "+"
            :: ([mkToken VARIABLE "b"] ++ mkToken OPERATOR "*"
                  :: [mkToken VARIABLE "c"]))%list.
  repeat (apply infix_binary || apply infix_operand || reflexivity).
Defined.

Lemma operand_pops_never_underflow_on_infix_witness :
  processExpression "a + b * c" "x" <> Undefined OperandUnderflow.
Proof.
  exact (proj1 (proj1 operand_pops_never_underflow_on_infix
                  "a + b * c" "x" infix_sample)).
Defined.

(** C3, as stated, fails: a non-empty expression without any operand, such
    as a single blank, yields no instruction at all. *)
Lemma final_assignment_needs_an_operand :
  ~ (forall expression resultVar,
        expression <> "" ->
        exists body top,
          processExpression expression resultVar
          = Ok (body ++ [mkInstruction "=" top "" resultVar])%list).
Proof.
  intros H. destruct (H " " "x") as (body & top & E); [discriminate|].
  vm_compute in E. injection E as E. now destruct body.
Qed.

(** C3, amended.  When the expression holds at least one operand token and
    the run completes, the last instruction is the assignment of the top of
    the operand stack to the result variable, with an empty second
    argument. *)
Theorem final_assignment :
  forall expression resultVar out,
    existsb is_operand (tokenize expression) = true ->
    processExpression expression resultVar = Ok out ->
    exists st top rest,
      reduce (tokenize expression) = Ok st /\
      operands st = top :: rest /\
      out = (instructions st ++ [mkInstruction "=" top "" resultVar])%list.
Proof.
  intros expression resultVar out Hx H.
  apply processExpression_Ok in H as (st & Hr & ->).
  assert (Ho : has_operand st).
  { unfold reduce in Hr. bind_inv Hr.
    apply (reduce_while_inv has_operand has_operand_processOperator _ _ _ Hr).
    apply (processTokens_has_operand _ _ _ Hst0). now right. }
  unfold has_operand in Ho. unfold finish.
  destruct (operands st) as [|top rest] eqn:E; [now elim Ho|].
  now exists st, top, rest.
Qed.

Lemma final_assignment_witness :
  exists st top rest,
    reduce (tokenize "a + b * c") = Ok st /\
    operands st = top :: rest /\
    [mkInstruction "*" "b" "c" "t1"; mkInstruction "+" "a" "t1" "t2";
     mkInstruction "=" "t2" "" "x"]
    = (instructions st ++ [mkInstruction "=" top "" "x"])%list.
Proof.
  apply (final_assignment "a + b * c" "x"); reflexivity.
Defined.

(** C4.  ["a + b * c"] with result variable ["x"] gives [t1 = b * c],
    [t2 = a + t1], [x = t2]; their quadruples list the operator, the two
    arguments and the result between parentheses, the assignment's second
    argument being rendered as a blank. *)
Theorem end_to_end_example :
  exists out,
    processExpression "a + b * c" "x" = Ok out /\
    out = [mkInstruction "*" "b" "c" "t1"; mkInstruction "+" "a" "t1" "t2";
           mkInstruction "=" "t2" "" "x"] /\
    map toString out = ["t1 = b * c"; "t2 = a + t1"; "x = t2"] /\
    map toQuadruple out = ["(*, b, c, t1)"; "(+, a, t1, t2)"; "(=, t2,  , x)"].
Proof. eexists; repeat split; reflexivity. Qed.

(** C5.  [^] is reduced from the right: ["a ^ b ^ c"] gives [t1 = b ^ c] and
    then [t2 = a ^ t1].  At an operator token the loop compares the
    precedence of the operator on top of the stack with [>] when the token is
    [^] and with [>=] otherwise, so a [^] on the stack does not yield to
    another [^], while each other operator yields to itself (["a - b - c"]
    gives [t1 = a - b] first). *)
Theorem exponent_is_right_associative :
  (forall resultVar,
      processExpression "a ^ b ^ c" resultVar
      = Ok [mkInstruction "^" "b" "c" "t1"; mkInstruction "^" "a" "t1" "t2";
            mkInstruction "=" "t2" "" resultVar]) /\
  (forall token v,
      yields token (mkToken OPERATOR v)
      = if (value token =? "^")%string
        then getPrecedence v >? getPrecedence (value token)
        else getPrecedence v >=? getPrecedence (value token)) /\
  yields (mkToken OPERATOR "^") (mkToken OPERATOR "^") = false /\
  (forall o, In o ["+"; "-"; "*"; "/"; "%"] ->
      yields (mkToken OPERATOR o) (mkToken OPERATOR o) = true) /\
  (forall resultVar,
      processExpression "a - b - c" resultVar
      = Ok [mkInstruction "-" "a" "b" "t1"; mkInstruction "-" "t1" "c" "t2";
            mkInstruction "=" "t2" "" resultVar]).
Proof.
  repeat split; try reflexivity.
  - intros token v. unfold yields; simpl.
    destruct (value token =? "^")%string; simpl; [reflexivity|].
    apply orb_false_r.
  - intros o H; simpl in H.
    repeat (destruct H as [<- | H]; [reflexivity|]). contradiction.
Qed.

(** C6.  For a fully parenthesized expression, with fewer than [INT_MAX]
    operators, the run completes and the instructions before the final
    assignment are as many as the binary operator occurrences. *)
Theorem fully_parenthesized_instruction_count :
  forall expression resultVar,
    fully_parenthesized (tokenize expression) ->
    Z.of_nat (count_operators (tokenize expression)) < INT_MAX ->
    exists body top,
      processExpression expression resultVar
      = Ok (body ++ [mkInstruction "=" top "" resultVar])%list /\
      List.length body = count_operators (tokenize expression).
Proof.
  intros expression resultVar H L.
  apply fully_parenthesized_infix in H.
  apply (processExpression_infix expression resultVar) in H.
  destruct (processExpression expression resultVar) as [out|[]]; simpl in H;
    try contradiction; try lia.
  destruct H as (body & top & -> & N). now exists body, top.
Qed.

Lemma fully_parenthesized_sample :
  fully_parenthesized (tokenize "((a + b) * (c - 4))").
Proof.
  change (tokenize "((a + b) * (c - 4))")
    with (open_paren
            :: (open_paren :: [mkToken VARIABLE "a"] ++ mkToken OPERATOR "+"
                  :: [mkToken VARIABLE "b"] ++ [close_paren])
            ++ mkToken OPERATOR "*"
            :: (open_paren :: [mkToken VARIABLE "c"] ++ mkToken OPERATOR "-"
                  :: [mkToken NUMBER "4"] ++ [close_paren])
            ++ [close_paren])%list.
  repeat (apply fp_binary || apply fp_operand || reflexivity).
Defined.

Lemma fully_parenthesized_instruction_count_witness :
  exists body top,
    processExpression "((a + b) * (c - 4))" "r"
    = Ok (body ++ [mkInstruction "=" top "" "r"])%list /\
    List.length body = 3%nat.
Proof.
  apply (fully_parenthesized_instruction_count "((a + b) * (c - 4))" "r").
  - exact fully_parenthesized_sample.
  - reflexivity.
Defined.

(** C7.  In a completed call the instructions emitted by pop-and-reduce are
    named [t1], [t2], ... in the order of emission: the counter starts at 1
    in every call and ends one ahead of the instructions of that call, so
    the first is [t1] whatever was compiled before, a later one carries a
    larger number than an earlier one, and no two carry the same name. *)
Theorem temporaries_increase :
  forall expression resultVar out,
    processExpression expression resultVar = Ok out ->
    exists st,
      reduce (tokenize expression) = Ok st /\
      out = (instructions st ++ assignment resultVar st)%list /\
      tempCount initial = 1 /\
      tempCount st = Z.of_nat (List.length (instructions st)) + 1 /\
      (forall a, nth_error (instructions st) 0 = Some a -> result a = "t1") /\
      (forall i j a b,
          nth_error (instructions st) i = Some a ->
          nth_error (instructions st) j = Some b ->
          (i < j)%nat ->
          exists n m,
            result a = "t" ++ to_string n /\
            result b = "t" ++ to_string m /\
            1 <= n < m /\
            result a <> result b).
Proof.
  intros expression resultVar out H.
  apply processExpression_Ok in H as (st & Hr & ->).
  destruct (reduce_numbered _ _ Hr) as [Hc Hn].
  exists st. split; [assumption|]. split; [apply finish_app|].
  split; [reflexivity|]. split; [assumption|]. split.
  - intros a Ha. now rewrite (Hn _ _ Ha).
  - intros i j a b Ha Hb L.
    exists (Z.of_nat i + 1), (Z.of_nat j + 1).
    rewrite (Hn _ _ Ha), (Hn _ _ Hb). repeat split; try lia.
    intros E. apply temp_name_inj in E. lia.
Qed.

Lemma temporaries_increase_witness :
  exists st,
    reduce (tokenize "a + b * c") = Ok st /\
    [mkInstruction "*" "b" "c" "t1"; mkInstruction "+" "a" "t1" "t2";
     mkInstruction "=" "t2" "" "x"]
    = (instructions st ++ assignment "x" st)%list /\
    tempCount initial = 1 /\
    tempCount st = Z.of_nat (List.length (instructions st)) + 1 /\
    (forall a, nth_error (instructions st) 0 = Some a -> result a = "t1") /\
    (forall i j a b,
        nth_error (instructions st) i = Some a ->
        nth_error (instructions st) j = Some b ->
        (i < j)%nat ->
        exists n m,
          result a = "t" ++ to_string n /\
          result b = "t" ++ to_string m /\
          1 <= n < m /\
          result a <> result b).
Proof.
  apply (temporaries_increase "a + b * c" "x"). reflexivity.
Defined.

(** C8.  The empty expression yields no instruction at all, whatever the
    result variable. *)
Theorem empty_expression :
  forall resultVar, processExpression "" resultVar = Ok [].
Proof. reflexivity. Qed.

(** C9.  The pipeline is deterministic.  Run statement by statement, a
    configuration of [processExpression] has at most one successor, so two
    invocations on the same expression and result variable that return,
    return the same instructions; the invocations that return are those on
    which the function [processExpression] gives a result, and they return
    that result, while an invocation that meets undefined behaviour returns
    nothing.  Each printer writes a text that the instructions alone
    determine: printing twice writes the same text twice, whatever the
    stream held. *)
Theorem pipeline_is_deterministic :
  (forall resultVar c c1 c2,
      step resultVar c c1 -> step resultVar c c2 -> c1 = c2) /\
  (forall expression resultVar out1 out2,
      returns expression resultVar out1 ->
      returns expression resultVar out2 ->
      out1 = out2) /\
  (forall expression resultVar out,
      returns expression resultVar out <->
      processExpression expression resultVar = Ok out) /\
  (forall expression resultVar u,
      processExpression expression resultVar = Undefined u ->
      forall out, ~ returns expression resultVar out) /\
  (forall l out out',
      exists text,
        printTAC l out = out ++ text /\ printTAC l out' = out' ++ text) /\
  (forall l out out',
      exists text,
        printQuadruples l out = out ++ text /\
        printQuadruples l out' = out' ++ text) /\
  (forall l out out',
      exists text,
        printTriples l out = out ++ text /\ printTriples l out' = out' ++ text) /\
  (forall l out out',
      exists text,
        printIndirectTriples l out = out ++ text /\
        printIndirectTriples l out' = out' ++ text) /\
  (forall l out,
      printTriples l (printTriples l out)
      = (out ++ written printTriples l) ++ written printTriples l).
Proof.
  assert (Sound : forall expression resultVar out,
             returns expression resultVar out ->
             processExpression expression resultVar = Ok out).
  { intros expression resultVar out H. apply steps_remaining in H.
    now rewrite remaining_start in H. }
  split; [exact step_deterministic|].
  split.
  { intros expression resultVar out1 out2 H1 H2.
    exact (steps_returned_unique _ _ _ H1 _ H2). }
  split.
  { intros expression resultVar out. split;
      [apply Sound | apply processExpression_returns]. }
  split.
  { intros expression resultVar u H out R. apply Sound in R. congruence. }
  repeat split.
  - intros l out out'; exists (written printTAC l);
      split; apply printTAC_appends.
  - intros l out out'; exists (written printQuadruples l);
      split; apply printQuadruples_appends.
  - intros l out out'; exists (written printTriples l);
      split; apply printTriples_appends.
  - intros l out out'; exists (written printIndirectTriples l);
      split; apply printIndirectTriples_appends.
  - intros l out. now rewrite !printTriples_appends.
Qed.

Lemma pipeline_is_deterministic_witness :
  returns "a + b * c" "x"
    [mkInstruction "*" "b" "c" "t1"; mkInstruction "+" "a" "t1" "t2";
     mkInstruction "=" "t2" "" "x"] /\
  ~ returns "+ a" "x" [].
Proof.
  split.
  - apply (proj1 (proj2 (proj2 pipeline_is_deterministic)) "a + b * c" "x").
    reflexivity.
  - apply (proj1 (proj2 (proj2 (proj2 pipeline_is_deterministic)))
             "+ a" "x" OperandUnderflow).
    reflexivity.
Defined.

(** C10.  In a completed call the k-th instruction emitted by pop-and-reduce
    is named [t] followed by the decimal numeral of k; in the output, every
    instruction before the last, at position i counted from 0, is named
    [t] followed by the numeral of i + 1. *)
Theorem position_determines_name :
  forall expression resultVar out,
    processExpression expression resultVar = Ok out ->
    (exists st,
        reduce (tokenize expression) = Ok st /\
        out = (instructions st ++ assignment resultVar st)%list /\
        forall k ins,
          nth_error (instructions st) k = Some ins ->
          result ins = "t" ++ to_string (Z.of_nat k + 1)) /\
    (forall i ins,
        nth_error out i = Some ins ->
        (S i < List.length out)%nat ->
        result ins = "t" ++ to_string (Z.of_nat i + 1)).
Proof.
  intros expression resultVar out H.
  apply processExpression_Ok in H as (st & Hr & ->).
  destruct (reduce_numbered _ _ Hr) as [_ Hn].
  split.
  - exists st. split; [assumption|]. split; [apply finish_app | exact Hn].
  - intros i ins. rewrite finish_app, length_app. intros E L.
    assert (Li : (i < List.length (instructions st))%nat).
    { unfold assignment in L. destruct (operands st); simpl in L; lia. }
    rewrite nth_error_app1 in E by assumption. eauto.
Qed.

Lemma position_determines_name_witness :
  (exists st,
      reduce (tokenize "(a + b) * c") = Ok st /\
      [mkInstruction "+" "a" "b" "t1"; mkInstruction "*" "t1" "c" "t2";
       mkInstruction "=" "t2" "" "r"]
      = (instructions st ++ assignment "r" st)%list /\
      forall k ins,
        nth_error (instructions st) k = Some ins ->
        result ins = "t" ++ to_string (Z.of_nat k + 1)) /\
  (forall i ins,
      nth_error [mkInstruction "+" "a" "b" "t1"; mkInstruction "*" "t1" "c" "t2";
                 mkInstruction "=" "t2" "" "r"] i = Some ins ->
      (S i < 3)%nat ->
      result ins = "t" ++ to_string (Z.of_nat i + 1)).
Proof.
  apply (position_determines_name "(a + b) * c" "r"). reflexivity.
Defined.

(** * Further properties *)

(** ** The lexer *)

Lemma scan_all p s : all_chars p (fst (scan p s)) = true.
Proof.
  induction s as [|c s IH]; simpl; [reflexivity|].
  destruct (p c) eqn:E; [|reflexivity].
  destruct (scan p s); simpl in *. now rewrite E.
Qed.

Lemma scan_app_separator p c s r :
  p c = false ->
  scan p (s ++ String c r) = (fst (scan p s), snd (scan p s) ++ String c r).
Proof.
  intros Hc; induction s as [|a s IH]; simpl.
  - now rewrite Hc.
  - destruct (p a); [|reflexivity].
    rewrite IH. now destruct (scan p s).
Qed.

Lemma scan_whole p c s r :
  all_chars p s = true -> p c = false ->
  scan p (s ++ String c r) = (s, String c r).
Proof.
  intros Hs Hc; induction s as [|a s IH]; simpl in *.
  - now rewrite Hc.
  - apply andb_true_iff in Hs as [Ha Hs]. now rewrite Ha, IH.
Qed.

Lemma char_classes c :
  (isdigit c = true -> isspace c = false) /\
  (isalpha c = true -> isspace c = false /\ isdigit c = false) /\
  (operator_char c = true ->
   isspace c = false /\ isdigit c = false /\ isalpha c = false /\
   strchr "+-*/%^()" c = true /\ (Ascii.eqb c "(" || Ascii.eqb c ")") = false) /\
  (Ascii.eqb c "(" || Ascii.eqb c ")" = true ->
   isspace c = false /\ isdigit c = false /\ isalpha c = false /\
   strchr "+-*/%^()" c = true).
Proof.
  destruct c as [[] [] [] [] [] [] [] []]; vm_compute;
    repeat split; intros; try reflexivity; discriminate.
Qed.

Lemma tokenize_lexical_all expression :
  Forall (fun t => lexical t = true) (tokenize expression).
Proof.
  unfold tokenize.
  generalize (String.length expression) as fuel. intros fuel.
  revert expression.
  induction fuel as [|fuel IH]; intros s; simpl; [constructor|].
  destruct s as [|c s]; [constructor|].
  destruct (isspace c); [apply IH|].
  destruct (isdigit c) eqn:Hd.
  { rewrite (scan_first _ _ _ (isdigit_numeric _ Hd)).
    constructor; [|apply IH].
    unfold lexical; simpl. rewrite Hd. apply scan_all. }
  destruct (isalpha c) eqn:Ha.
  { rewrite (scan_first _ _ _ (isalpha_identifier _ Ha)).
    constructor; [|apply IH].
    unfold lexical; simpl. rewrite Ha. apply scan_all. }
  destruct (strchr "+-*/%^()" c) eqn:Hs; [|apply IH].
  constructor; [|apply IH].
  unfold lexical, operator_char; simpl.
  destruct (Ascii.eqb c "(" || Ascii.eqb c ")") eqn:Hp; simpl.
  - reflexivity.
  - rewrite Hs. reflexivity.
Qed.


(** X1.  Every token the lexer produces has the lexical form of its class:
    a number starts with a digit and holds digits and dots only, an
    identifier starts with a letter and holds letters, digits and
    underscores only, an operator is one of the characters [+ - * / % ^]
    (or the null character), a parenthesis is one of the two parentheses.
    In particular no token is empty. *)
Theorem tokenize_lexical :
  forall expression,
    Forall (fun t => lexical t = true) (tokenize expression) /\
    (forall t, In t (tokenize expression) -> value t <> "").
Proof.
  intros expression. pose proof (tokenize_lexical_all expression) as F.
  split; [exact F|].
  intros t Ht E. rewrite Forall_forall in F. specialize (F t Ht).
  unfold lexical in F. rewrite E in F. now destruct (type t).
Qed.

Lemma separator_false c :
  separator c = true -> numeric c = false /\ identifier c = false.
Proof.
  unfold separator; intros H. apply andb_true_iff in H as [H1 H2].
  now rewrite negb_true_iff in H1, H2.
Qed.

Lemma tokenize_separator_fuel c s2 :
  separator c = true ->
  forall n s1,
    (String.length s1 <= n)%nat ->
    tokenize (s1 ++ String c s2) = (tokenize s1 ++ tokenize (String c s2))%list.
Proof.
  intros Hc. destruct (separator_false c Hc) as [Hn Hi].
  induction n as [|n IH]; intros s1 L.
  - destruct s1; [reflexivity | simpl in L; lia].
  - destruct s1 as [|a s1]; [reflexivity|].
    simpl in L.
    change (String a s1 ++ String c s2) with (String a (s1 ++ String c s2)).
    rewrite (tokenize_step a s1), (tokenize_step a (s1 ++ String c s2)).
    destruct (isspace a); [apply IH; lia|].
    destruct (isdigit a) eqn:Hd.
    { rewrite !(scan_first _ _ _ (isdigit_numeric _ Hd)).
      rewrite (scan_app_separator numeric c s1 s2 Hn). cbn [fst snd].
      pose proof (scan_rest_length numeric s1).
      rewrite IH by lia. reflexivity. }
    destruct (isalpha a) eqn:Ha.
    { rewrite !(scan_first _ _ _ (isalpha_identifier _ Ha)).
      rewrite (scan_app_separator identifier c s1 s2 Hi). cbn [fst snd].
      pose proof (scan_rest_length identifier s1).
      rewrite IH by lia. reflexivity. }
    destruct (strchr "+-*/%^()" a); [simpl; f_equal|]; apply IH; lia.
Qed.

(** X2.  A character that continues neither a number nor an identifier ends
    the token before it: the tokens of a text split at such a character,
    and a blank there leaves no trace. *)
Theorem tokenize_separator :
  forall c s1 s2,
    separator c = true ->
    tokenize (s1 ++ String c s2) = (tokenize s1 ++ tokenize (String c s2))%list /\
    (isspace c = true ->
     tokenize (s1 ++ String c s2) = (tokenize s1 ++ tokenize s2)%list).
Proof.
  intros c s1 s2 Hc.
  pose proof (tokenize_separator_fuel c s2 Hc (String.length s1) s1 (le_n _)) as E.
  split; [exact E|].
  intros Hs. rewrite E. f_equal. rewrite tokenize_step. now rewrite Hs.
Qed.

Lemma tokenize_separator_witness :
  tokenize ("a1" ++ String " " "+ b")
  = (tokenize "a1" ++ tokenize (String " " "+ b"))%list /\
  (isspace " " = true ->
   tokenize ("a1" ++ String " " "+ b") = (tokenize "a1" ++ tokenize "+ b")%list).
Proof. apply (tokenize_separator " " "a1" "+ b"). reflexivity. Defined.

Lemma tokenize_lexical_token t rest :
  lexical t = true ->
  tokenize (value t ++ String " " rest) = t :: tokenize rest.
Proof.
  assert (Hb : tokenize (String " " rest) = tokenize rest)
    by (now rewrite tokenize_step).
  destruct t as [ty v]; unfold lexical; simpl.
  destruct ty, v as [|c s]; try discriminate; intros H.
  - (* NUMBER *)
    apply andb_true_iff in H as [Hd Hs].
    destruct (char_classes c) as (D & _).
    change (String c s ++ String " " rest) with (String c (s ++ String " " rest)).
    rewrite tokenize_step, (D Hd), Hd.
    rewrite (scan_first _ _ _ (isdigit_numeric _ Hd)).
    rewrite (scan_whole numeric " " s rest Hs eq_refl). cbn [fst snd].
    now rewrite Hb.
  - (* OPERATOR *)
    destruct s; [|discriminate].
    destruct (char_classes c) as (_ & _ & O & _).
    destruct (O H) as (Hsp & Hd & Ha & Hs & Hp).
    change (String c "" ++ String " " rest) with (String c (String " " rest)).
    rewrite tokenize_step, Hsp, Hd, Ha, Hs, Hp. now rewrite Hb.
  - (* VARIABLE *)
    apply andb_true_iff in H as [Ha Hs].
    destruct (char_classes c) as (_ & A & _).
    destruct (A Ha) as [Hsp Hd].
    change (String c s ++ String " " rest) with (String c (s ++ String " " rest)).
    rewrite tokenize_step, Hsp, Hd, Ha.
    rewrite (scan_first _ _ _ (isalpha_identifier _ Ha)).
    rewrite (scan_whole identifier " " s rest Hs eq_refl). cbn [fst snd].
    now rewrite Hb.
  - (* PARENTHESIS *)
    destruct s; [|discriminate].
    destruct (char_classes c) as (_ & _ & _ & P).
    destruct (P H) as (Hsp & Hd & Ha & Hs).
    change (String c "" ++ String " " rest) with (String c (String " " rest)).
    rewrite tokenize_step, Hsp, Hd, Ha, Hs, H. now rewrite Hb.
Qed.

(** X3.  Writing lexical tokens back as text, a blank after each, and
    tokenizing that text gives the tokens back. *)
Theorem tokenize_unlex :
  forall ts,
    Forall (fun t => lexical t = true) ts ->
    tokenize (unlex ts) = ts.
Proof.
  induction 1 as [|t ts Ht _ IH]; [reflexivity|].
  simpl. rewrite (tokenize_lexical_token t (unlex ts) Ht). now rewrite IH.
Qed.

Lemma tokenize_unlex_witness :
  tokenize (unlex [mkToken VARIABLE "x_1"; mkToken OPERATOR "*";
                   mkToken PARENTHESIS "("; mkToken NUMBER "2.5"])
  = [mkToken VARIABLE "x_1"; mkToken OPERATOR "*";
     mkToken PARENTHESIS "("; mkToken NUMBER "2.5"].
Proof.
  apply tokenize_unlex. repeat constructor.
Defined.

(** X4.  A text yields no token exactly when each of its characters is a
    blank or starts no token; and there are never more tokens than
    characters. *)
Theorem tokenize_nil_iff :
  forall expression,
    (tokenize expression = [] <-> all_chars skipped expression = true) /\
    (List.length (tokenize expression) <= String.length expression)%nat.
Proof.
  intros s. split.
  - induction s as [|c s IH]; [split; reflexivity|].
    rewrite tokenize_step. unfold skipped in *. simpl.
    destruct (isspace c); simpl; [exact IH|].
    destruct (isdigit c); simpl; [split; discriminate|].
    destruct (isalpha c); simpl; [split; discriminate|].
    destruct (strchr "+-*/%^()" c); simpl; [split; discriminate | exact IH].
  - unfold tokenize. generalize (String.length s) at 1 as fuel. intros fuel.
    revert s. induction fuel as [|fuel IH]; intros s; [simpl; lia|].
    destruct s as [|c s]; [simpl; lia|].
    cbn [tokenize_loop String.length].
    destruct (isspace c); [specialize (IH s); lia|].
    destruct (isdigit c) eqn:Hd.
    { rewrite (scan_first _ _ _ (isdigit_numeric _ Hd)). simpl.
      pose proof (scan_rest_length numeric s).
      specialize (IH (snd (scan numeric s))). lia. }
    destruct (isalpha c) eqn:Ha.
    { rewrite (scan_first _ _ _ (isalpha_identifier _ Ha)). simpl.
      pose proof (scan_rest_length identifier s).
      specialize (IH (snd (scan identifier s))). lia. }
    destruct (strchr "+-*/%^()" c); simpl; specialize (IH s); lia.
Qed.

(** ** The reducer on arbitrary token sequences *)

Lemma bind_Undefined {A B} (m : Outcome A) (k : A -> Outcome B) u :
  bind m k = Undefined u ->
  m = Undefined u \/ exists a, m = Ok a /\ k a = Undefined u.
Proof. destruct m as [a|v]; simpl; [eauto | intros [= ->]; now left]. Qed.

Lemma processTokens_app ts1 ts2 :
  forall st,
    processTokens (ts1 ++ ts2) st
    = (st' <- processTokens ts1 st ;; processTokens ts2 st').
Proof.
  induction ts1 as [|t ts1 IH]; intros st; simpl; [reflexivity|].
  destruct (processToken t st) as [st1|u]; simpl; [apply IH | reflexivity].
Qed.

Lemma while_top_guarded cond fuel :
  forall st, while_top cond fuel st <> Undefined EmptyOperatorStack.
Proof.
  induction fuel as [|fuel IH]; intros st; simpl; [discriminate|].
  destruct (operators st) as [|top ops] eqn:E; [discriminate|].
  destruct (cond top); [|discriminate].
  intros H. apply bind_Undefined in H as [H | (st' & _ & H)].
  - unfold processOperator in H. rewrite E in H.
    destruct (operands st) as [|a2 [|a1 rest]]; try discriminate.
    destruct (tempCount st <? INT_MAX); discriminate.
  - now apply IH in H.
Qed.

Lemma processTokens_guarded ts :
  forall st, processTokens ts st <> Undefined EmptyOperatorStack.
Proof.
  induction ts as [|t ts IH]; intros st; simpl; [discriminate|].
  intros H. apply bind_Undefined in H as [H | (st' & _ & H)];
    [|now apply IH in H].
  unfold processToken in H.
  destruct (_ || _); [discriminate|].
  destruct (TokenType.eqb _ _).
  { apply bind_Undefined in H as [H | (st' & _ & H)]; [|discriminate].
    now apply while_top_guarded in H. }
  destruct (value t =? "(")%string; [discriminate|].
  destruct (value t =? ")")%string; [|discriminate].
  apply bind_Undefined in H as [H | (st' & _ & H)]; [|discriminate].
  now apply while_top_guarded in H.
Qed.

(** X5.  Whatever the tokens, pop-and-reduce is never invoked on an empty
    operator stack: a run ends with a result, with an operand underflow or
    with a counter overflow. *)
Theorem operator_stack_never_underflows :
  (forall tokens, reduce tokens <> Undefined EmptyOperatorStack) /\
  (forall expression resultVar,
      processExpression expression resultVar <> Undefined EmptyOperatorStack).
Proof.
  assert (R : forall tokens, reduce tokens <> Undefined EmptyOperatorStack).
  { intros tokens H. unfold reduce in H.
    apply bind_Undefined in H as [H | (st' & _ & H)].
    - now apply processTokens_guarded in H.
    - now apply while_top_guarded in H. }
  split; [exact R|].
  intros expression resultVar H. unfold processExpression in H.
  apply bind_Undefined in H as [H | (st' & _ & H)]; [|discriminate].
  now apply R in H.
Qed.

(** *** Every operand token is on the stack or went into an instruction *)

Lemma weight_processOperator n st st' :
  weight st = n -> processOperator st = Ok st' -> weight st' = n.
Proof.
  unfold weight; intros Hn H.
  apply processOperator_Ok in H as (top & a2 & a1 & rest & _ & Ho & Ho' & Hi & _).
  rewrite Ho', Hi, length_app. rewrite Ho in Hn. simpl in *. lia.
Qed.

Lemma count_operands_cons t ts :
  count_operands (t :: ts)
  = ((if is_operand t then 1 else 0) + count_operands ts)%nat.
Proof. unfold count_operands; simpl. now destruct (is_operand t). Qed.

Lemma weight_processToken t st st' :
  processToken t st = Ok st' ->
  weight st' = ((if is_operand t then 1 else 0) + weight st)%nat.
Proof.
  unfold processToken, is_operand. intros H.
  destruct (_ || _).
  { injection H as <-. reflexivity. }
  destruct (TokenType.eqb _ _).
  { bind_inv H. injection H as <-.
    apply (reduce_while_inv (fun s => weight s = weight st)
             (weight_processOperator (weight st))) in Hst0; auto. }
  destruct (value t =? "(")%string.
  { injection H as <-. reflexivity. }
  destruct (value t =? ")")%string; [|now injection H as <-].
  bind_inv H. injection H as <-.
  apply (reduce_while_inv (fun s => weight s = weight st)
           (weight_processOperator (weight st))) in Hst0; auto.
  now destruct (operators st0).
Qed.

Lemma weight_processTokens ts :
  forall st st',
    processTokens ts st = Ok st' ->
    weight st' = (count_operands ts + weight st)%nat.
Proof.
  induction ts as [|t ts IH]; simpl; intros st st' H.
  - now injection H as <-.
  - bind_inv H. rewrite count_operands_cons.
    rewrite (IH _ _ H), (weight_processToken _ _ _ Hst0). lia.
Qed.

(** X6.  In every completed run each operand token is accounted for: the
    operands left on the stack and the instructions emitted by
    pop-and-reduce are together as many as the operand tokens.  So the
    output, final assignment included, never holds more instructions than
    the expression holds operands. *)
Theorem operands_are_conserved :
  (forall tokens st,
      reduce tokens = Ok st ->
      (List.length (operands st) + List.length (instructions st))%nat
      = count_operands tokens) /\
  (forall expression resultVar out,
      processExpression expression resultVar = Ok out ->
      (List.length out <= count_operands (tokenize expression))%nat).
Proof.
  assert (R : forall tokens st,
             reduce tokens = Ok st -> weight st = count_operands tokens).
  { intros tokens st H. unfold reduce in H. bind_inv H.
    apply weight_processTokens in Hst0.
    apply (reduce_while_inv (fun s => weight s = weight st0)
             (weight_processOperator (weight st0))) in H; auto.
    rewrite H, Hst0. unfold weight; simpl. lia. }
  split; [exact R|].
  intros expression resultVar out H.
  apply processExpression_Ok in H as (st & Hr & ->).
  apply R in Hr. unfold weight in Hr. unfold finish.
  destruct (operands st); simpl in *; rewrite ?length_app; simpl; lia.
Qed.

Lemma operands_are_conserved_witness :
  (List.length [mkInstruction "*" "b" "c" "t1"; mkInstruction "+" "a" "t1" "t2";
                mkInstruction "=" "t2" "" "x"]
   <= count_operands (tokenize "a + b * c"))%nat.
Proof.
  apply (proj2 operands_are_conserved "a + b * c" "x"). reflexivity.
Defined.

(** *** Where the arguments come from *)

Lemma available_mono tokens l l' v :
  (forall ins, In ins l -> In ins l') ->
  available tokens l v -> available tokens l' v.
Proof.
  intros Hl [H | (ins & Hi & Hr)]; [now left | right].
  exists ins; auto.
Qed.

Lemma sourced_processOperator tokens st st' :
  sourced tokens st -> processOperator st = Ok st' -> sourced tokens st'.
Proof.
  intros (Hops & Hopd & Hins) H.
  apply processOperator_Ok in H
    as (top & a2 & a1 & rest & Eops & Eopd & Eopd' & Eins & _).
  rewrite Eops in Hops. rewrite Eopd in Hopd.
  inversion Hops as [|? ? Htop Hops']; subst.
  inversion Hopd as [|? ? Ha2 Hopd1]; subst.
  inversion Hopd1 as [|? ? Ha1 Hrest]; subst.
  split; [assumption|]. split.
  - rewrite Eopd', Eins. constructor.
    + right. eexists; split; [apply in_or_app; right; now left | reflexivity].
    + eapply Forall_impl; [|exact Hrest].
      intros v. apply available_mono. intros ins Hi. apply in_or_app; now left.
  - intros i ins. rewrite Eins. intros E.
    destruct (Nat.lt_ge_cases i (List.length (instructions st))) as [L|L].
    + rewrite nth_error_app1 in E by assumption.
      rewrite firstn_app.
      replace (i - List.length (instructions st))%nat with 0%nat by lia.
      simpl. rewrite app_nil_r. now apply Hins.
    + rewrite nth_error_app2 in E by assumption.
      destruct (i - List.length (instructions st))%nat as [|k] eqn:D;
        simpl in E; [|now destruct k].
      injection E as <-; simpl.
      assert (i = List.length (instructions st)) as -> by lia.
      rewrite firstn_app, firstn_all, Nat.sub_diag. simpl. rewrite app_nil_r.
      split; [now exists top | now split].
Qed.

Lemma sourced_processToken tokens t st st' :
  In t tokens ->
  processToken t st = Ok st' -> sourced tokens st -> sourced tokens st'.
Proof.
  intros Ht H Hs. unfold processToken in H.
  destruct (TokenType.eqb (type t) NUMBER || TokenType.eqb (type t) VARIABLE)
    eqn:Eo.
  { injection H as <-. destruct Hs as (Hops & Hopd & Hins).
    split; [exact Hops | split; [|exact Hins]].
    simpl. constructor; [|assumption]. left. now exists t. }
  destruct (TokenType.eqb (type t) OPERATOR).
  { bind_inv H. injection H as <-.
    apply (reduce_while_inv (sourced tokens) (sourced_processOperator tokens))
      in Hst0; [|assumption].
    destruct Hst0 as (Hops & Hopd & Hins).
    split; [|split; [exact Hopd | exact Hins]].
    simpl. now constructor. }
  destruct (value t =? "(")%string.
  { injection H as <-. destruct Hs as (Hops & Hopd & Hins).
    split; [|split; [exact Hopd | exact Hins]].
    simpl. now constructor. }
  destruct (value t =? ")")%string; [|now injection H as <-].
  bind_inv H. injection H as <-.
  apply (reduce_while_inv (sourced tokens) (sourced_processOperator tokens))
    in Hst0; [|assumption].
  destruct (operators st0) as [|top ops] eqn:E; [assumption|].
  destruct Hst0 as (Hops & Hopd & Hins).
  split; [|split; [exact Hopd | exact Hins]].
  simpl. rewrite E in *. now inversion Hops.
Qed.

Lemma sourced_processTokens tokens ts :
  (forall t, In t ts -> In t tokens) ->
  forall st st',
    processTokens ts st = Ok st' -> sourced tokens st -> sourced tokens st'.
Proof.
  induction ts as [|t ts IH]; simpl; intros Hin st st' H Hs.
  - now injection H as <-.
  - bind_inv H. apply (IH (fun x Hx => Hin x (or_intror Hx)) st0); [assumption|].
    apply (sourced_processToken tokens t st); auto.
Qed.

Lemma reduce_sourced tokens st : reduce tokens = Ok st -> sourced tokens st.
Proof.
  unfold reduce; intros H. bind_inv H.
  apply (reduce_while_inv (sourced tokens) (sourced_processOperator tokens))
    in H; [assumption|].
  apply (sourced_processTokens tokens tokens (fun _ Hx => Hx) initial);
    [assumption|].
  split; [constructor | split; [constructor|]].
  intros [|i] ins; discriminate.
Qed.

(** X7.  In the output of a completed run every instruction before the
    final assignment takes its operator from a token of the expression, and
    each of its two arguments is the text of an operand token or the
    result of an instruction emitted before it. *)
Theorem arguments_are_defined_before_use :
  forall expression resultVar out,
    processExpression expression resultVar = Ok out ->
    forall i ins,
      nth_error out i = Some ins ->
      (S i < List.length out)%nat ->
      (exists t, In t (tokenize expression) /\ value t = op ins) /\
      available (tokenize expression) (firstn i out) (arg1 ins) /\
      available (tokenize expression) (firstn i out) (arg2 ins).
Proof.
  intros expression resultVar out H i ins E L.
  apply processExpression_Ok in H as (st & Hr & ->).
  destruct (reduce_sourced _ _ Hr) as (_ & _ & Hins).
  rewrite finish_app in *. rewrite length_app in L.
  assert (Li : (i < List.length (instructions st))%nat).
  { unfold assignment in L. destruct (operands st); simpl in L; lia. }
  rewrite nth_error_app1 in E by assumption.
  rewrite firstn_app. replace (i - List.length (instructions st))%nat with 0%nat by lia.
  simpl. rewrite app_nil_r. now apply Hins.
Qed.

Lemma arguments_are_defined_before_use_witness :
  (exists t, In t (tokenize "a + b * c") /\ value t = "+") /\
  available (tokenize "a + b * c") [mkInstruction "*" "b" "c" "t1"] "a" /\
  available (tokenize "a + b * c") [mkInstruction "*" "b" "c" "t1"] "t1".
Proof.
  apply (arguments_are_defined_before_use "a + b * c" "x"
           [mkInstruction "*" "b" "c" "t1"; mkInstruction "+" "a" "t1" "t2";
            mkInstruction "=" "t2" "" "x"]
           eq_refl 1%nat (mkInstruction "+" "a" "t1" "t2") eq_refl).
  apply le_n.
Defined.

(** *** No computed value is dropped *)

Lemma kept_processOperator st st' :
  kept st -> processOperator st = Ok st' -> kept st'.
Proof.
  intros Hk H.
  apply processOperator_Ok in H
    as (top & a2 & a1 & rest & _ & Eopd & Eopd' & Eins & _).
  intros i ins. rewrite Eins, Eopd'. intros E.
  destruct (Nat.lt_ge_cases i (List.length (instructions st))) as [L|L].
  - rewrite nth_error_app1 in E by assumption.
    destruct (Hk i ins E) as [Hin | (j & later & Lj & Ej & Hu)].
    + rewrite Eopd in Hin. simpl in Hin.
      destruct Hin as [<- | [<- | Hin]].
      * right. exists (List.length (instructions st)). eexists.
        split; [assumption|].
        split; [rewrite nth_error_app2, Nat.sub_diag by lia; reflexivity|].
        right; reflexivity.
      * right. exists (List.length (instructions st)). eexists.
        split; [assumption|].
        split; [rewrite nth_error_app2, Nat.sub_diag by lia; reflexivity|].
        left; reflexivity.
      * left. now right.
    + right. exists j, later. split; [assumption|]. split; [|assumption].
      rewrite nth_error_app1; [assumption|].
      apply nth_error_Some. now rewrite Ej.
  - rewrite nth_error_app2 in E by assumption.
    destruct (i - List.length (instructions st))%nat as [|k]; simpl in E;
      [|now destruct k].
    injection E as <-. left. now left.
Qed.

Lemma reduce_kept tokens st : reduce tokens = Ok st -> kept st.
Proof.
  intros H. apply (reduce_inv kept) with (tokens := tokens); auto.
  - apply kept_processOperator.
  - intros v s Hk i ins E. destruct (Hk i ins E) as [Hin | Hu];
      [left; now right | now right].
  - intros [|i] ins; discriminate.
Qed.

Lemma reduce_infix_Ok ts st :
  infix ts -> reduce ts = Ok st -> settled (count_operators ts) st.
Proof. intros Hi H. apply reduce_infix in Hi. now rewrite H in Hi. Qed.

(** X8.  For a well-formed infix expression, every instruction of the
    output but the last has its result consumed by a later one: no
    temporary is computed and then dropped. *)
Theorem temporaries_are_consumed :
  forall expression resultVar out,
    infix (tokenize expression) ->
    processExpression expression resultVar = Ok out ->
    forall i ins,
      nth_error out i = Some ins ->
      (S i < List.length out)%nat ->
      exists j later,
        (i < j)%nat /\ nth_error out j = Some later /\
        (arg1 later = result ins \/ arg2 later = result ins).
Proof.
  intros expression resultVar out Hi H i ins E L.
  apply processExpression_Ok in H as (st & Hr & ->).
  destruct (reduce_infix_Ok _ _ Hi Hr) as (_ & (top & Ho) & Hn).
  pose proof (reduce_kept _ _ Hr) as Hk. unfold kept in Hk.
  unfold finish in *. rewrite Ho in *. rewrite length_app in L. simpl in L.
  assert (Li : (i < List.length (instructions st))%nat) by lia.
  rewrite nth_error_app1 in E by assumption.
  destruct (Hk i ins E) as [[<- | []] | (j & later & Lj & Ej & Hu)].
  - exists (List.length (instructions st)). eexists.
    split; [assumption|].
    split; [rewrite nth_error_app2, Nat.sub_diag by lia; reflexivity|].
    left; reflexivity.
  - exists j, later. split; [assumption|]. split; [|assumption].
    rewrite nth_error_app1; [assumption|].
    apply nth_error_Some. now rewrite Ej.
Qed.

Lemma temporaries_are_consumed_witness :
  exists j later,
    (0 < j)%nat /\
    nth_error [mkInstruction "*" "b" "c" "t1"; mkInstruction "+" "a" "t1" "t2";
               mkInstruction "=" "t2" "" "x"] j = Some later /\
    (arg1 later = "t1" \/ arg2 later = "t1").
Proof.
  apply (temporaries_are_consumed "a + b * c" "x"
           [mkInstruction "*" "b" "c" "t1"; mkInstruction "+" "a" "t1" "t2";
            mkInstruction "=" "t2" "" "x"]
           infix_sample eq_refl 0%nat (mkInstruction "*" "b" "c" "t1") eq_refl).
  apply le_S, le_n.
Defined.

(** X9.  For a well-formed infix expression with at least one operator and
    fewer than [INT_MAX], the run completes with one instruction per
    operator and the final assignment stores the last temporary, [t]
    followed by the number of operators. *)
Theorem final_assignment_stores_last_temporary :
  forall expression resultVar,
    infix (tokenize expression) ->
    (0 < count_operators (tokenize expression))%nat ->
    Z.of_nat (count_operators (tokenize expression)) < INT_MAX ->
    exists body,
      processExpression expression resultVar
      = Ok (body ++ [mkInstruction "="
                       ("t" ++ to_string (Z.of_nat (count_operators (tokenize expression))))
                       "" resultVar])%list /\
      List.length body = count_operators (tokenize expression).
Proof.
  intros expression resultVar Hi Hpos Hlt.
  pose proof (reduce_infix _ Hi) as Hs. unfold processExpression.
  destruct (reduce (tokenize expression)) as [st|[]] eqn:Hr; simpl in Hs;
    try contradiction; try lia.
  destruct Hs as (_ & (top & Ho) & Hn).
  destruct (reduce_numbered _ _ Hr) as [_ Hnum].
  pose proof (reduce_kept _ _ Hr) as Hk.
  simpl. unfold finish. rewrite Ho.
  exists (instructions st). split; [|assumption].
  destruct (nth_error (instructions st) (count_operators (tokenize expression) - 1))
    as [ins|] eqn:E.
  2:{ apply nth_error_None in E. lia. }
  assert (Hres : result ins = top).
  { destruct (Hk _ _ E) as [Hin | (j & later & Lj & Ej & _)].
    - rewrite Ho in Hin. now destruct Hin as [-> | []].
    - assert (j < List.length (instructions st))%nat
        by (apply nth_error_Some; now rewrite Ej).
      lia. }
  rewrite (Hnum _ _ E) in Hres. rewrite <- Hres.
  replace (Z.of_nat (count_operators (tokenize expression) - 1) + 1)
    with (Z.of_nat (count_operators (tokenize expression))) by lia.
  reflexivity.
Qed.

Lemma final_assignment_stores_last_temporary_witness :
  exists body,
    processExpression "a + b * c" "x"
    = Ok (body ++ [mkInstruction "=" ("t" ++ to_string (Z.of_nat 2)) "" "x"])%list /\
    List.length body = 2%nat.
Proof.
  apply (final_assignment_stores_last_temporary "a + b * c" "x" infix_sample);
    vm_compute; [constructor; constructor | reflexivity].
Defined.

(** ** Precedence and associativity *)

Lemma yields_precedence o2 o1 :
  type o1 = OPERATOR ->
  (yields o2 o1 = true <->
   getPrecedence (value o2) < getPrecedence (value o1) \/
   (getPrecedence (value o2) = getPrecedence (value o1) /\ value o2 <> "^")).
Proof.
  intros Ty. unfold yields. rewrite Ty. cbn [TokenType.eqb andb].
  destruct (String.eqb_spec (value o2) "^") as [E|E]; simpl.
  - rewrite Z.gtb_ltb, Z.ltb_lt. split; [now left|].
    intros [H | [_ H]]; [assumption | contradiction].
  - rewrite orb_false_r, Z.geb_le. split; [|intros [H | [H _]]; lia].
    intros H.
    destruct (Z.eq_dec (getPrecedence (value o2)) (getPrecedence (value o1)));
      [right; now split | left; lia].
Qed.

(** X10.  With two operators between three operands, [x o1 y o2 z], the
    first instruction combines [x] and [y] when [o1] has the higher
    precedence, or the same and [o2] is not [^]; otherwise it combines [y]
    and [z].  The second instruction combines the temporary with the
    operand left over. *)
Theorem two_operators_compose :
  forall x y z o1 o2,
    is_operand x = true -> is_operand y = true -> is_operand z = true ->
    type o1 = OPERATOR -> type o2 = OPERATOR ->
    reduce [x; o1; y; o2; z]
    = Ok {| instructions :=
              if yields o2 o1
              then [mkInstruction (value o1) (value x) (value y) "t1";
                    mkInstruction (value o2) "t1" (value z) "t2"]
              else [mkInstruction (value o2) (value y) (value z) "t1";
                    mkInstruction (value o1) (value x) "t1" "t2"];
            operators := [];
            operands := ["t2"];
            tempCount := 3 |} /\
    (yields o2 o1 = true <->
     getPrecedence (value o2) < getPrecedence (value o1) \/
     (getPrecedence (value o2) = getPrecedence (value o1) /\ value o2 <> "^")).
Proof.
  intros x y z o1 o2 Hx Hy Hz H1 H2.
  split; [|now apply yields_precedence].
  destruct x as [tx vx], y as [ty vy], z as [tz vz], o1 as [t1 v1], o2 as [t2 v2].
  simpl in H1, H2. subst t1 t2.
  unfold is_operand in *; simpl in *.
  unfold reduce. cbn [processTokens].
  unfold processToken at 1. cbn [type value]. rewrite Hx. cbn [bind].
  unfold processToken at 1. cbn [type value TokenType.eqb orb].
  rewrite reduce_while_nil by reflexivity. cbn [bind].
  unfold processToken at 1. cbn [type value]. rewrite Hy. cbn [bind].
  unfold processToken at 1. cbn [type value TokenType.eqb orb].
  rewrite reduce_while_step. cbn [operators push_operand push_operator].
  destruct tz; try discriminate;
    destruct (yields _ _); reflexivity.
Qed.

Lemma two_operators_compose_witness :
  reduce [mkToken VARIABLE "a"; mkToken OPERATOR "+"; mkToken VARIABLE "b";
          mkToken OPERATOR "*"; mkToken NUMBER "2"]
  = Ok {| instructions :=
            if yields (mkToken OPERATOR "*") (mkToken OPERATOR "+")
            then [mkInstruction "+" "a" "b" "t1"; mkInstruction "*" "t1" "2" "t2"]
            else [mkInstruction "*" "b" "2" "t1"; mkInstruction "+" "a" "t1" "t2"];
          operators := [];
          operands := ["t2"];
          tempCount := 3 |} /\
  (yields (mkToken OPERATOR "*") (mkToken OPERATOR "+") = true <->
   getPrecedence "*" < getPrecedence "+" \/
   (getPrecedence "*" = getPrecedence "+" /\ "*" <> "^")).
Proof.
  apply (two_operators_compose
           (mkToken VARIABLE "a") (mkToken VARIABLE "b") (mkToken NUMBER "2")
           (mkToken OPERATOR "+") (mkToken OPERATOR "*")); reflexivity.
Defined.

Lemma processToken_operand t st :
  is_operand t = true -> processToken t st = Ok (push_operand (value t) st).
Proof. unfold processToken, is_operand. now intros ->. Qed.

Lemma processToken_operator_token o st :
  type o = OPERATOR ->
  processToken o st
  = (st' <- reduce_while (yields o) st ;; Ok (push_operator o st')).
Proof. unfold processToken. now intros ->. Qed.

Lemma left_chain_run o :
  type o = OPERATOR -> yields o o = true ->
  forall xs acc x ins c,
    Forall (fun t => is_operand t = true) xs ->
    c + Z.of_nat (List.length xs) < INT_MAX ->
    exists st,
      (st' <- processTokens (flat_map (fun x => [o; x]) xs)
                {| instructions := ins; operators := [o];
                   operands := [x; acc]; tempCount := c |} ;;
       reduce_while (fun _ => true) st') = Ok st /\
      instructions st
      = (ins ++ left_chain (value o) acc c (x :: map value xs))%list /\
      operators st = [] /\
      operands st = ["t" ++ to_string (c + Z.of_nat (List.length xs))].
Proof.
  intros Ty Hy. induction xs as [|y ys IH]; intros acc x ins c Hxs Hc.
  - cbn [flat_map processTokens bind]. rewrite reduce_while_step.
    cbn [operators].
    erewrite processOperator_step by reflexivity. cbn [tempCount].
    destruct (Z.ltb_spec c INT_MAX) as [_|L]; [|simpl in Hc; lia].
    cbn [bind]. rewrite reduce_while_nil by reflexivity.
    eexists; split; [reflexivity|]. cbn.
    repeat split. now rewrite Z.add_0_r.
  - inversion Hxs as [|? ? Hyo Hys]; subst.
    cbn [flat_map app processTokens List.length] in *.
    rewrite (processToken_operator_token o _ Ty).
    rewrite reduce_while_step. cbn [operators]. rewrite Hy.
    erewrite processOperator_step by reflexivity. cbn [tempCount].
    destruct (Z.ltb_spec c INT_MAX) as [_|L]; [|lia].
    cbn [bind]. rewrite reduce_while_nil by reflexivity. cbn [bind].
    rewrite (processToken_operand y _ Hyo). cbn [bind].
    destruct (IH ("t" ++ to_string c) (value y)
                (ins ++ [mkInstruction (value o) acc x ("t" ++ to_string c)])%list
                (c + 1) Hys ltac:(lia))
      as (st & Hrun & Hi & Hops & Hopd).
    exists st. split; [exact Hrun|]. split; [|split; [assumption|]].
    + rewrite Hi, <- app_assoc. reflexivity.
    + rewrite Hopd. do 3 f_equal. lia.
Qed.

(** X11.  A chain [x0 o x1 o ... o xn] of one operator other than [^] is
    reduced from the left: the first instruction combines [x0] and [x1],
    each later one combines the previous temporary with the next
    operand. *)
Theorem left_associative_chain :
  forall o x0 xs,
    type o = OPERATOR -> value o <> "^" ->
    is_operand x0 = true ->
    Forall (fun t => is_operand t = true) xs ->
    Z.of_nat (List.length xs) < INT_MAX ->
    exists st,
      reduce (chain o x0 xs) = Ok st /\
      instructions st = left_chain (value o) (value x0) 1 (map value xs).
Proof.
  intros o x0 xs Ty Hne Hx0 Hxs Hn.
  assert (Hy : yields o o = true).
  { apply yields_precedence; [assumption|]. right. now split. }
  unfold reduce, chain. cbn [processTokens].
  rewrite (processToken_operand x0 _ Hx0). cbn [bind].
  destruct xs as [|y ys].
  - eexists. split; [reflexivity|reflexivity].
  - inversion Hxs as [|? ? Hyo Hys]; subst.
    cbn [flat_map app processTokens List.length map] in *.
    rewrite (processToken_operator_token o _ Ty).
    rewrite reduce_while_nil by reflexivity. cbn [bind].
    rewrite (processToken_operand y _ Hyo). cbn [bind].
    destruct (left_chain_run o Ty Hy ys (value x0) (value y) [] 1 Hys ltac:(lia))
      as (st & Hrun & Hi & _).
    exists st. split; [exact Hrun | exact Hi].
Qed.

Lemma left_associative_chain_witness :
  exists st,
    reduce (chain (mkToken OPERATOR "-") (mkToken VARIABLE "a")
              [mkToken VARIABLE "b"; mkToken NUMBER "1"; mkToken VARIABLE "c"])
    = Ok st /\
    instructions st = left_chain "-" "a" 1 ["b"; "1"; "c"].
Proof.
  apply (left_associative_chain (mkToken OPERATOR "-") (mkToken VARIABLE "a")
           [mkToken VARIABLE "b"; mkToken NUMBER "1"; mkToken VARIABLE "c"]).
  - reflexivity.
  - discriminate.
  - reflexivity.
  - repeat constructor.
  - reflexivity.
Defined.

Lemma repeat_shift {A} (a : A) n l : (repeat a n ++ a :: l = a :: repeat a n ++ l)%list.
Proof. induction n as [|n IH]; simpl; [reflexivity | now rewrite IH]. Qed.

(** While the operator on top does not yield, the chain is only stacked. *)
Lemma stacking_run o :
  type o = OPERATOR -> yields o o = false ->
  forall xs st,
    Forall (fun t => is_operand t = true) xs ->
    match operators st with [] => True | top :: _ => top = o end ->
    processTokens (flat_map (fun x => [o; x]) xs) st
    = Ok {| instructions := instructions st;
            operators := repeat o (List.length xs) ++ operators st;
            operands := rev (map value xs) ++ operands st;
            tempCount := tempCount st |}.
Proof.
  intros Ty Hy. induction xs as [|y ys IH]; intros st Hxs Htop.
  - now destruct st.
  - inversion Hxs as [|? ? Hyo Hys]; subst.
    cbn [flat_map app processTokens List.length map rev repeat].
    rewrite (processToken_operator_token o _ Ty).
    assert (W : reduce_while (yields o) st = Ok st).
    { rewrite reduce_while_step.
      destruct (operators st) as [|top ops]; [reflexivity|].
      subst top. now rewrite Hy. }
    rewrite W. cbn [bind].
    rewrite (processToken_operand y _ Hyo). cbn [bind].
    rewrite IH by (cbn; auto). cbn.
    rewrite repeat_shift, <- app_assoc. reflexivity.
Qed.

Lemma flush_run o :
  forall below acc ins c,
    c + Z.of_nat (List.length below) <= INT_MAX ->
    exists st,
      reduce_while (fun _ => true)
        {| instructions := ins; operators := repeat o (List.length below);
           operands := acc :: below; tempCount := c |} = Ok st /\
      instructions st = (ins ++ right_chain (value o) below acc c)%list /\
      operators st = [] /\
      List.length (operands st) = 1%nat.
Proof.
  induction below as [|b bs IH]; intros acc ins c Hc.
  - rewrite reduce_while_nil by reflexivity.
    eexists; split; [reflexivity|]. cbn. now rewrite app_nil_r.
  - cbn [List.length repeat] in *. rewrite reduce_while_step. cbn [operators].
    erewrite processOperator_step by reflexivity. cbn [tempCount].
    destruct (Z.ltb_spec c INT_MAX) as [_|L]; [|lia].
    cbn [bind].
    destruct (IH ("t" ++ to_string c)
                (ins ++ [mkInstruction (value o) b acc ("t" ++ to_string c)])%list
                (c + 1) ltac:(lia))
      as (st & Hrun & Hi & Hops & Hopd).
    exists st. split; [exact Hrun|]. split; [|split; assumption].
    rewrite Hi, <- app_assoc. reflexivity.
Qed.

(** X12.  A chain [x0 ^ x1 ^ ... ^ xn] is reduced from the right: nothing is
    emitted before the end of the input, then the first instruction
    combines the last two operands and each later one combines the operand
    before with the previous temporary. *)
Theorem right_associative_chain :
  forall x0 xs,
    is_operand x0 = true ->
    Forall (fun t => is_operand t = true) xs ->
    Z.of_nat (List.length xs) < INT_MAX ->
    exists st last below,
      processTokens (chain (mkToken OPERATOR "^") x0 xs) initial
      = Ok {| instructions := [];
              operators := repeat (mkToken OPERATOR "^") (List.length xs);
              operands := last :: below;
              tempCount := 1 |} /\
      last :: below = rev (map value (x0 :: xs)) /\
      reduce (chain (mkToken OPERATOR "^") x0 xs) = Ok st /\
      instructions st = right_chain "^" below last 1.
Proof.
  intros x0 xs Hx0 Hxs Hn.
  set (o := mkToken OPERATOR "^").
  assert (Hrun : processTokens (chain o x0 xs) initial
                 = Ok {| instructions := [];
                         operators := repeat o (List.length xs);
                         operands := rev (map value (x0 :: xs));
                         tempCount := 1 |}).
  { unfold chain. cbn [processTokens].
    rewrite (processToken_operand x0 _ Hx0). cbn [bind].
    rewrite (stacking_run o eq_refl eq_refl xs _ Hxs) by exact I.
    cbn. now rewrite app_nil_r. }
  destruct (rev (map value (x0 :: xs))) as [|last below] eqn:E.
  { apply (f_equal (@List.length string)) in E.
    rewrite length_rev, length_map in E. discriminate. }
  assert (Hl : List.length below = List.length xs).
  { apply (f_equal (@List.length string)) in E.
    rewrite length_rev, length_map in E. simpl in E. lia. }
  destruct (flush_run o below last [] 1 ltac:(lia)) as (st & Hf & Hi & _).
  rewrite Hl in Hf.
  exists st, last, below. split; [exact Hrun|]. split; [reflexivity|].
  split; [|exact Hi].
  unfold reduce. rewrite Hrun. exact Hf.
Qed.

Lemma right_associative_chain_witness :
  exists st last below,
    processTokens (chain (mkToken OPERATOR "^") (mkToken VARIABLE "a")
                     [mkToken VARIABLE "b"; mkToken NUMBER "2"]) initial
    = Ok {| instructions := [];
            operators := repeat (mkToken OPERATOR "^") 2;
            operands := last :: below;
            tempCount := 1 |} /\
    last :: below = rev (map value [mkToken VARIABLE "a"; mkToken VARIABLE "b";
                                    mkToken NUMBER "2"]) /\
    reduce (chain (mkToken OPERATOR "^") (mkToken VARIABLE "a")
              [mkToken VARIABLE "b"; mkToken NUMBER "2"]) = Ok st /\
    instructions st = right_chain "^" below last 1.
Proof.
  apply (right_associative_chain (mkToken VARIABLE "a")
           [mkToken VARIABLE "b"; mkToken NUMBER "2"]).
  - reflexivity.
  - repeat constructor.
  - reflexivity.
Defined.

(** ** Unmatched and redundant parentheses *)

Lemma while_top_ext c1 c2 fuel :
  forall st,
    (forall t, In t (operators st) -> c1 t = c2 t) ->
    while_top c1 fuel st = while_top c2 fuel st.
Proof.
  induction fuel as [|fuel IH]; intros st H; simpl; [reflexivity|].
  destruct (operators st) as [|top ops] eqn:E; [reflexivity|].
  rewrite <- (H top) by now left.
  destruct (c1 top); [|reflexivity].
  destruct (processOperator st) as [st'|u] eqn:Hp; [simpl | reflexivity].
  apply IH. intros t Ht. apply H. right.
  apply processOperator_Ok in Hp as (t0 & _ & _ & _ & Hops & _).
  rewrite E in Hops. injection Hops as _ ->. exact Ht.
Qed.

Lemma flush_empties st st' :
  reduce_while (fun _ => true) st = Ok st' -> operators st' = [].
Proof.
  intros H. apply while_top_exit in H; [|apply le_n].
  destruct (operators st'); [reflexivity | discriminate].
Qed.

Lemma processToken_close_flush st :
  (forall t, In t (operators st) -> value t <> "(") ->
  processToken close_paren st = reduce_while (fun _ => true) st.
Proof.
  intros H.
  unfold processToken. cbn [close_paren type value TokenType.eqb orb String.eqb
                            Ascii.eqb Bool.eqb andb].
  replace (reduce_while not_open st) with (reduce_while (fun _ => true) st).
  2:{ apply while_top_ext. intros t Ht. unfold not_open.
      destruct (String.eqb_spec (value t) "("); [now apply H in Ht | reflexivity]. }
  destruct (reduce_while (fun _ => true) st) as [st'|u] eqn:F; [|reflexivity].
  cbn [bind]. now rewrite (flush_empties _ _ F).
Qed.

(** X13.  A closing parenthesis that finds no open parenthesis on the
    operator stack reduces everything stacked, as the end of the input
    does; on an empty stack it does nothing. *)
Theorem close_paren_without_open :
  forall st,
    (forall t, In t (operators st) -> value t <> "(") ->
    processToken close_paren st = reduce_while (fun _ => true) st /\
    (operators st = [] -> processToken close_paren st = Ok st).
Proof.
  intros st H. pose proof (processToken_close_flush st H) as E.
  split; [exact E|].
  intros Hn. rewrite E. now apply reduce_while_nil.
Qed.

Lemma close_paren_without_open_witness :
  processToken close_paren
    {| instructions := []; operators := [mkToken OPERATOR "+"];
       operands := ["b"; "a"]; tempCount := 1 |}
  = reduce_while (fun _ => true)
      {| instructions := []; operators := [mkToken OPERATOR "+"];
         operands := ["b"; "a"]; tempCount := 1 |} /\
  (operators {| instructions := []; operators := [mkToken OPERATOR "+"];
                operands := ["b"; "a"]; tempCount := 1 |} = [] ->
   processToken close_paren
     {| instructions := []; operators := [mkToken OPERATOR "+"];
        operands := ["b"; "a"]; tempCount := 1 |}
   = Ok {| instructions := []; operators := [mkToken OPERATOR "+"];
           operands := ["b"; "a"]; tempCount := 1 |}).
Proof.
  apply close_paren_without_open.
  intros t [<- | []]. discriminate.
Defined.

Lemma stack_shape_operators d k ops :
  stack_shape d k ops -> d = 0%nat ->
  forall t, In t ops -> is_operator t = true.
Proof.
  induction 1 as [| d k t ops Ht _ IH | d k ops _ _]; intros Hd x Hx.
  - destruct Hx.
  - destruct Hx as [<- | Hx]; auto.
  - discriminate.
Qed.

Lemma processTokens_infix ts st :
  infix ts -> processTokens ts initial = Ok st ->
  exists k, balanced 0 k true st.
Proof.
  intros Hi H. apply infix_shape in Hi.
  pose proof (processTokens_shape 0 false ts Hi initial 0%nat) as S.
  rewrite H in S. destruct S as (k & B & _); [|now exists k].
  repeat split; constructor.
Qed.

Lemma reduce_trailing_close ts :
  infix ts -> reduce (ts ++ [close_paren]) = reduce ts.
Proof.
  intros Hi. unfold reduce. rewrite processTokens_app.
  destruct (processTokens ts initial) as [st|u] eqn:H; [|reflexivity].
  destruct (processTokens_infix ts st Hi H) as (k & Hs & _).
  cbn [bind processTokens].
  rewrite processToken_close_flush.
  2:{ intros t Ht E'.
      pose proof (is_operator_not_open t
                    (stack_shape_operators _ _ _ Hs eq_refl t Ht)) as N.
      rewrite E' in N. discriminate. }
  destruct (reduce_while (fun _ => true) st) as [st'|u] eqn:F; [|reflexivity].
  cbn [bind]. apply reduce_while_nil. now apply flush_empties in F.
Qed.

(** X14.  A closing parenthesis too many after a well-formed infix
    expression changes nothing in the output. *)
Theorem trailing_close_paren_is_ignored :
  forall expression resultVar,
    infix (tokenize expression) ->
    processExpression (expression ++ ")") resultVar
    = processExpression expression resultVar.
Proof.
  intros expression resultVar Hi. unfold processExpression.
  rewrite (tokenize_separator_fuel ")" "" eq_refl _ expression (le_n _)).
  change (tokenize ")") with [close_paren].
  now rewrite (reduce_trailing_close _ Hi).
Qed.

Lemma trailing_close_paren_is_ignored_witness :
  processExpression ("a + b * c" ++ ")") "x" = processExpression "a + b * c" "x".
Proof.
  exact (trailing_close_paren_is_ignored "a + b * c" "x" infix_sample).
Defined.

Lemma balanced_processOperator d k st st' :
  balanced d (S k) true st ->
  (exists top ops, operators st = top :: ops /\ is_operator top = true) ->
  processOperator st = Ok st' ->
  balanced d k true st'.
Proof.
  intros (Hs & Ho & Hc) (top & ops & E & Ht) H.
  apply processOperator_Ok in H
    as (top' & a2 & a1 & rest & Eops & Eopd & Eopd' & Eins & Etc & _).
  rewrite E in Eops. injection Eops as <- ->.
  rewrite E in Hs.
  inversion Hs as [| d' k' t ops' Hop Hs' | d' k' ops' Hs' Ed]; subst.
  - repeat split; [assumption | |].
    + rewrite Eopd'. rewrite Eopd in Ho. simpl in *. lia.
    + rewrite Etc, Eins, length_app, Hc. simpl. lia.
  - discriminate.
Qed.

Lemma processOperator_under ops vs st top l :
  operators st = top :: l ->
  (2 <= List.length (operands st))%nat ->
  processOperator (under ops vs st) = omap (under ops vs) (processOperator st).
Proof.
  intros E L.
  destruct (operands st) as [|a2 [|a1 rest]] eqn:Eo; simpl in L; try lia.
  rewrite (processOperator_step st top l a2 a1 rest E Eo).
  rewrite (processOperator_step (under ops vs st) top (l ++ ops) a2 a1 (rest ++ vs))
    by (unfold under; simpl; now rewrite ?E, ?Eo).
  cbn [under tempCount instructions].
  destruct (tempCount st <? INT_MAX); reflexivity.
Qed.

(** Above an open parenthesis a loop that stops at parentheses runs as it
    does on its own stacks. *)
Lemma reduce_while_under cond ops vs :
  cond open_paren = false ->
  forall n st d k,
    List.length (operators st) = n ->
    balanced d k true st ->
    reduce_while cond (under (open_paren :: ops) vs st)
    = omap (under (open_paren :: ops) vs) (reduce_while cond st).
Proof.
  intros Hc. induction n as [|n IH]; intros st d k Hn Hb.
  - destruct (operators st) as [|top l] eqn:E; [|discriminate].
    rewrite (reduce_while_nil cond st E). rewrite reduce_while_step.
    cbn [under operators]. rewrite E. cbn [app]. now rewrite Hc.
  - destruct (operators st) as [|top l] eqn:E; [discriminate|].
    rewrite (reduce_while_step cond st), (reduce_while_step cond (under _ _ st)).
    cbn [under operators]. rewrite E. cbn [app].
    destruct (cond top) eqn:C; [|reflexivity].
    destruct Hb as (Hs & Ho & Ht). rewrite E in Hs.
    inversion Hs as [| d' k1 t ops' Hop Hs' | d' k' ops' Hs' Ed]; subst;
      [|congruence].
    rewrite (processOperator_under (open_paren :: ops) vs st top l E)
      by (rewrite Ho; lia).
    destruct (processOperator st) as [st1|u] eqn:Hp; [|reflexivity].
    cbn [omap bind].
    assert (B1 : balanced d k1 true st1).
    { apply (balanced_processOperator d k1 st st1); auto.
      - repeat split; auto. now rewrite E.
      - now exists top, l. }
    apply (IH st1 d k1); [|assumption].
    apply processOperator_Ok in Hp as (t0 & _ & _ & _ & Hops & _).
    rewrite E in Hops. injection Hops as _ <-. simpl in Hn. lia.
Qed.

Lemma pop_under ops vs st top l :
  operators st = top :: l ->
  match operators (under ops vs st) with
  | [] => under ops vs st
  | _ :: _ => pop_operator (under ops vs st)
  end = under ops vs (pop_operator st).
Proof. intros E. unfold under, pop_operator; simpl. now rewrite E. Qed.

Lemma processTokens_under ops vs d after ts :
  shape d after ts ->
  forall st k,
    balanced d k after st ->
    processTokens ts (under (open_paren :: ops) vs st)
    = omap (under (open_paren :: ops) vs) (processTokens ts st).
Proof.
  induction 1 as [ | d t ts Ht _ IH | d ts _ IH | d t ts Ht _ IH | d ts _ IH ];
    intros st k Hb.
  - reflexivity.
  - (* operand *)
    cbn [processTokens]. rewrite !(processToken_operand t _ Ht). cbn [bind].
    change (push_operand (value t) (under (open_paren :: ops) vs st))
      with (under (open_paren :: ops) vs (push_operand (value t) st)).
    apply (IH _ k). destruct Hb as (Hs & Ho & Hc).
    repeat split; simpl; auto. lia.
  - (* open parenthesis *)
    cbn [processTokens]. cbn [processToken open_paren type value TokenType.eqb orb
                              String.eqb Ascii.eqb Bool.eqb andb bind].
    change (push_operator open_paren (under (open_paren :: ops) vs st))
      with (under (open_paren :: ops) vs (push_operator open_paren st)).
    apply (IH _ k). destruct Hb as (Hs & Ho & Hc).
    repeat split; simpl; auto. now constructor.
  - (* operator *)
    cbn [processTokens].
    rewrite !(processToken_operator_token t _ (is_operator_type _ Ht)).
    rewrite (reduce_while_under (yields t) ops vs (yields_open_paren t)
               _ st d k eq_refl Hb).
    pose proof (reduce_while_balanced (yields t) d st k
                  (or_introl (yields_open_paren t)) Hb) as S.
    destruct (reduce_while (yields t) st) as [s|u]; [|reflexivity].
    destruct S as (k' & (Hs & Ho & Hc) & _).
    cbn [omap bind].
    change (push_operator t (under (open_paren :: ops) vs s))
      with (under (open_paren :: ops) vs (push_operator t s)).
    apply (IH _ (S k')). repeat split; simpl; auto.
    + now constructor.
    + lia.
  - (* close parenthesis *)
    cbn [processTokens]. cbn [processToken close_paren type value TokenType.eqb orb
                              String.eqb Ascii.eqb Bool.eqb andb].
    rewrite (reduce_while_under not_open ops vs eq_refl _ st (S d) k eq_refl Hb).
    pose proof (reduce_while_balanced not_open (S d) st k (or_introl eq_refl) Hb)
      as S.
    destruct (reduce_while not_open st) as [s|u]; [|reflexivity].
    destruct S as (k' & (Hs & Ho & Hc) & _ & Hx).
    cbn [omap bind].
    destruct (operators s) as [|top l] eqn:E; [inversion Hs|].
    rewrite (pop_under (open_paren :: ops) vs s top l E).
    inversion Hs as [| d' k1 t ops' Hop Hs' | d' k1 ops' Hs']; subst.
    { unfold not_open in Hx. rewrite (is_operator_not_open _ Hop) in Hx.
      discriminate. }
    apply (IH _ k'). repeat split; simpl; auto. now rewrite E.
Qed.

Lemma reduce_parenthesized ts :
  infix ts -> reduce (open_paren :: ts ++ [close_paren]) = reduce ts.
Proof.
  intros Hi. unfold reduce. cbn [processTokens].
  cbn [processToken open_paren type value TokenType.eqb orb
       String.eqb Ascii.eqb Bool.eqb andb bind].
  change (push_operator open_paren initial)
    with (under [open_paren] [] initial).
  rewrite processTokens_app.
  rewrite (processTokens_under [] [] 0 false ts (infix_shape _ Hi) initial 0%nat)
    by (repeat split; constructor).
  destruct (processTokens ts initial) as [st|u] eqn:H; [|reflexivity].
  destruct (processTokens_infix ts st Hi H) as (k & Hb).
  cbn [omap bind processTokens].
  cbn [processToken close_paren type value TokenType.eqb orb
       String.eqb Ascii.eqb Bool.eqb andb].
  rewrite (reduce_while_under not_open [] [] eq_refl _ st 0%nat k eq_refl Hb).
  replace (reduce_while not_open st) with (reduce_while (fun _ => true) st).
  2:{ apply while_top_ext. intros t Ht. unfold not_open.
      destruct Hb as (Hs & _).
      now rewrite (is_operator_not_open t
                     (stack_shape_operators _ _ _ Hs eq_refl t Ht)). }
  destruct (reduce_while (fun _ => true) st) as [st'|u] eqn:F; [|reflexivity].
  pose proof (flush_empties _ _ F) as E.
  cbn [omap bind]. destruct st' as [si so sd sc]. simpl in E. subst so.
  cbn [under operators operands instructions tempCount app pop_operator tl].
  unfold pop_operator, under; simpl.
  rewrite app_nil_r. now rewrite reduce_while_nil.
Qed.

(** X15.  Parentheses around a whole well-formed infix expression change
    nothing in the output. *)
Theorem redundant_parentheses :
  forall expression resultVar,
    infix (tokenize expression) ->
    processExpression ("(" ++ expression ++ ")") resultVar
    = processExpression expression resultVar.
Proof.
  intros expression resultVar Hi. unfold processExpression.
  assert (T : tokenize ("(" ++ expression ++ ")")
              = open_paren :: tokenize expression ++ [close_paren]).
  { change ("(" ++ expression ++ ")") with (String "(" (expression ++ ")")).
    rewrite tokenize_step.
    rewrite (tokenize_separator_fuel ")" "" eq_refl _ expression (le_n _)).
    reflexivity. }
  rewrite T. now rewrite (reduce_parenthesized _ Hi).
Qed.

Lemma redundant_parentheses_witness :
  processExpression ("(" ++ "a + b * c" ++ ")") "x"
  = processExpression "a + b * c" "x".
Proof.
  exact (redundant_parentheses "a + b * c" "x" infix_sample).
Defined.

(** ** The printed tables *)

Lemma print_rows_join row l :
  forall from out,
    print_rows row from l out
    = out ++ join (map (fun p => row (fst p) (snd p))
                       (combine (seq from (List.length l)) l)).
Proof.
  induction l as [|ins l IH]; intros from out; simpl.
  - now rewrite string_app_nil_r.
  - rewrite IH. apply string_app_assoc.
Qed.

Lemma pointer_rows_join (l : list Instruction) :
  forall from,
    map (fun p : nat * Instruction => pointer_row (fst p))
        (combine (seq from (List.length l)) l)
    = map pointer_row (seq from (List.length l)).
Proof.
  induction l as [|ins l IH]; intros from; simpl; [reflexivity|].
  now rewrite IH.
Qed.

(** X16.  The indirect triples are the triples behind an identity pointer
    table: the pointer table holds one row [i -> i] for each position, and
    the instruction table holds the very rows of the triples view. *)
Theorem indirect_triples_are_triples :
  forall l,
    written printTriples l = nl ++ "Triples:" ++ nl ++ join (triple_rows l) /\
    written printIndirectTriples l
    = nl ++ "Indirect Triples:" ++ nl ++ "Pointer Table:" ++ nl
         ++ join (map pointer_row (seq 0 (List.length l)))
         ++ nl ++ "Instruction Table:" ++ nl ++ join (triple_rows l).
Proof.
  intros l. unfold written, printTriples, printIndirectTriples, triple_rows.
  cbv zeta. rewrite !print_rows_join, pointer_rows_join.
  split; [reflexivity|].
  cbn [append]. now rewrite !string_app_assoc.
Qed.

Lemma print_rows_same_triples from :
  forall l l' out,
    map triple l = map triple l' ->
    print_rows triple_row from l out = print_rows triple_row from l' out.
Proof.
  intros l; revert from.
  induction l as [|a l IH]; intros from [|b l'] out E; try discriminate;
    [reflexivity|].
  simpl in *. unfold triple in E at 1 3. injection E as Eo E1 E2 E.
  assert (R : triple_row from a = triple_row from b)
    by (unfold triple_row; now rewrite Eo, E1, E2).
  rewrite R. now apply IH.
Qed.

Lemma print_rows_same_length (row : nat -> string) from :
  forall (l l' : list Instruction) out,
    List.length l = List.length l' ->
    print_rows (fun i _ => row i) from l out
    = print_rows (fun i _ => row i) from l' out.
Proof.
  intros l; revert from.
  induction l as [|a l IH]; intros from [|b l'] out E; try discriminate;
    [reflexivity|].
  simpl in *. apply IH. now injection E.
Qed.

(** X17.  The triples and the indirect triples never show the result of an
    instruction: two instruction sequences with the same operators and
    arguments print the same text. *)
Theorem triples_ignore_results :
  forall l l' out,
    map triple l = map triple l' ->
    printTriples l out = printTriples l' out /\
    printIndirectTriples l out = printIndirectTriples l' out.
Proof.
  intros l l' out E. unfold printTriples, printIndirectTriples. cbv zeta.
  split; [now apply print_rows_same_triples|].
  rewrite (print_rows_same_length pointer_row 0 l l')
    by (apply (f_equal (@List.length _)) in E; now rewrite !length_map in E).
  now apply print_rows_same_triples.
Qed.

Lemma triples_ignore_results_witness :
  printTriples [mkInstruction "+" "a" "b" "t1"] ""
  = printTriples [mkInstruction "+" "a" "b" "r"] "" /\
  printIndirectTriples [mkInstruction "+" "a" "b" "t1"] ""
  = printIndirectTriples [mkInstruction "+" "a" "b" "r"] "".
Proof.
  apply triples_ignore_results. reflexivity.
Defined.

(** ** The text of the instructions *)

Lemma lexical_not_assignment t : lexical t = true -> value t <> "=".
Proof.
  destruct t as [ty v]. unfold lexical; simpl. intros H E. subst v.
  destruct ty; vm_compute in H; discriminate.
Qed.

(** X18.  In the output of a completed run no instruction before the last
    has the operator [=]: each is rendered in full, as
    [result = arg1 op arg2] and as the quadruple of its four fields, and
    only the final assignment is rendered as a copy. *)
Theorem only_the_last_is_an_assignment :
  forall expression resultVar out,
    processExpression expression resultVar = Ok out ->
    forall i ins,
      nth_error out i = Some ins ->
      (S i < List.length out)%nat ->
      op ins <> "=" /\
      toString ins
      = result ins ++ " = " ++ arg1 ins ++ " " ++ op ins ++ " " ++ arg2 ins /\
      toQuadruple ins
      = "(" ++ op ins ++ ", " ++ arg1 ins ++ ", " ++ arg2 ins ++ ", "
            ++ result ins ++ ")".
Proof.
  intros expression resultVar out H i ins E L.
  apply processExpression_Ok in H as (st & Hr & ->).
  destruct (reduce_sourced _ _ Hr) as (_ & _ & Hins).
  rewrite finish_app in *. rewrite length_app in L.
  assert (Li : (i < List.length (instructions st))%nat).
  { unfold assignment in L. destruct (operands st); simpl in L; lia. }
  rewrite nth_error_app1 in E by assumption.
  destruct (Hins i ins E) as ((t & Ht & Hv) & _).
  assert (N : op ins <> "=").
  { rewrite <- Hv. apply lexical_not_assignment.
    pose proof (tokenize_lexical_all expression) as F.
    rewrite Forall_forall in F. now apply F. }
  split; [exact N|].
  unfold toString, toQuadruple.
  destruct (String.eqb_spec (op ins) "="); [contradiction|]. now split.
Qed.

Lemma only_the_last_is_an_assignment_witness :
  "*" <> "=" /\
  toString (mkInstruction "*" "b" "c" "t1")
  = "t1" ++ " = " ++ "b" ++ " " ++ "*" ++ " " ++ "c" /\
  toQuadruple (mkInstruction "*" "b" "c" "t1")
  = "(" ++ "*" ++ ", " ++ "b" ++ ", " ++ "c" ++ ", " ++ "t1" ++ ")".
Proof.
  apply (only_the_last_is_an_assignment "a + b * c" "x"
           [mkInstruction "*" "b" "c" "t1"; mkInstruction "+" "a" "t1" "t2";
            mkInstruction "=" "t2" "" "x"]
           eq_refl 0%nat (mkInstruction "*" "b" "c" "t1") eq_refl).
  apply le_S, le_n.
Defined.
